(** * Logstream file handling (heka, [input/logstream/filehandling.go])

    A shallow embedding of the Go package [logstream]: the calendar lookup
    tables, the [MultipleError] aggregate, [Logfile.PopulateMatchParts],
    [Logfiles.PopulateMatchParts], [ByPriority.Less],
    [ScanDirectoryForLogfiles], [FilterMultipleStreamFiles] and
    [ResolveDifferentiatedName], followed by the properties the design
    document states about them.

    Conventions.
    - A Go [string] is a sequence of bytes: [String.string].
    - A Go [int] is a [Z]; the only place where its width matters is
      [strconv.Atoi], which saturates at the largest [int].
    - A Go [map] is a [gmap]; a map that may still be [nil] is an
      [option (gmap _ _)].
    - [*Logfile] is a location in a store [gmap loc Logfile]; a location
      the store does not hold stands for the [nil] pointer.
    - A run-time panic (index or slice out of range, nil dereference) is
      an explicit result. *)

From Stdlib Require Import ZArith Ascii String.
From stdpp Require Import gmap strings list fin_maps.

Local Open Scope Z_scope.

(** ** The Go platform *)

(** The width of [int]: 32 or 64 bits ([strconv.IntSize]). *)
Inductive wordSize := W32 | W64.

Definition bitsOf (w : wordSize) : Z :=
  match w with W32 => 32 | W64 => 64 end.

(** What the package takes from the Go runtime and library and this
    development leaves open: the width of [int], and
    [strings.Map(unicode.ToLower, s)], the path [strings.ToLower] takes for
    a string that holds a byte outside ASCII (it depends on the Unicode case
    tables). *)
Class GoPlatform := {
  intWidth : wordSize;
  mapUnicodeToLower : string → string
}.

Definition intSize `{GoPlatform} : Z := bitsOf intWidth.
Definition maxInt `{GoPlatform} : Z := 2 ^ (intSize - 1) - 1.
Definition minInt `{GoPlatform} : Z := - 2 ^ (intSize - 1).

(** Results of code that may panic. *)
Inductive result (A : Type) :=
  | Ok (a : A)
  | Panicked.
Arguments Ok {A} a.
Arguments Panicked {A}.

(** How a call that returns [error] ends: it returns [nil] or an error
    value, or it panics. *)
Inductive outcome (E : Type) :=
  | Return (err : option E)
  | Panic.
Arguments Return {E} err.
Arguments Panic {E}.

(** ** package strings *)
Module GoStrings.

Definition byteOf (c : ascii) : N := N_of_ascii c.

(** [c < utf8.RuneSelf] *)
Definition isASCIIByte (c : ascii) : bool := (byteOf c <? 128)%N.

Definition isUpperByte (c : ascii) : bool :=
  ((65 <=? byteOf c) && (byteOf c <=? 90))%N.

(** [c += 'a' - 'A'] for ['A' <= c <= 'Z'] *)
Definition lowerByte (c : ascii) : ascii :=
  if isUpperByte c then ascii_of_N (byteOf c + 32) else c.

Fixpoint isASCII (s : string) : bool :=
  match s with
  | EmptyString => true
  | String c s' => isASCIIByte c && isASCII s'
  end.

Fixpoint asciiToLower (s : string) : string :=
  match s with
  | EmptyString => EmptyString
  | String c s' => String (lowerByte c) (asciiToLower s')
  end.

(** [strings.ToLower]: byte-wise on an ASCII-only string, through the
    Unicode tables otherwise. *)
Definition ToLower `{GoPlatform} (s : string) : string :=
  if isASCII s then asciiToLower s else mapUnicodeToLower s.

(** [strings.Join] *)
Fixpoint Join (elems : list string) (sep : string) : string :=
  match elems with
  | [] => ""
  | [e] => e
  | e :: rest => e +:+ sep +:+ Join rest sep
  end.

(** [s[:1]]: panics unless [1 <= len(s)]. *)
Definition slicePrefix1 (s : string) : result string :=
  match s with
  | EmptyString => Panicked
  | String c _ => Ok (String c EmptyString)
  end.

(** [s[1:]]: panics unless [1 <= len(s)]. *)
Definition sliceFrom1 (s : string) : result string :=
  match s with
  | EmptyString => Panicked
  | String _ s' => Ok s'
  end.

End GoStrings.

(** ** package strconv *)
Module GoStrconv.

Definition isDigit (c : ascii) : bool :=
  ((48 <=? N_of_ascii c) && (N_of_ascii c <=? 57))%N.

Definition digitVal (c : ascii) : Z := Z.of_N (N_of_ascii c) - 48.

(** The number a string of decimal digits denotes, most significant
    digit first; [None] at a byte that is no digit. *)
Fixpoint digitsFrom (acc : Z) (s : string) : option Z :=
  match s with
  | EmptyString => Some acc
  | String c s' =>
      if isDigit c then digitsFrom (acc * 10 + digitVal c) s' else None
  end.

Inductive NumError := ErrSyntax | ErrRange.

(** [strconv.Atoi]: an optional sign and decimal digits. A value outside
    [int] is reported as [ErrRange] together with the nearest [int]. *)
Definition Atoi `{GoPlatform} (s : string) : Z * option NumError :=
  let '(neg, body) :=
    match s with
    | String "-"%char s' => (true, s')
    | String "+"%char s' => (false, s')
    | _ => (false, s)
    end in
  match body with
  | EmptyString => (0, Some ErrSyntax)
  | _ =>
      match digitsFrom 0 body with
      | None => (0, Some ErrSyntax)
      | Some n =>
          if neg then
            if - n <? minInt then (minInt, Some ErrRange) else (- n, None)
          else
            if maxInt <? n then (maxInt, Some ErrRange) else (n, None)
      end
  end.

End GoStrconv.

(** ** package regexp *)

(** A compiled [*regexp.Regexp], as far as this package looks at it. *)
Record Regexp := {
  (** [re.SubexpNames()]: entry [i] names capture group [i]; entry 0 is
      the whole match and unnamed groups have the name [""]. *)
  SubexpNames : list string;
  (** [re.FindStringSubmatch(s)]: the matched text of every group, or the
      [nil] slice ([[]]) when [s] does not match. *)
  FindStringSubmatch : string → list string;
  (** [re.MatchString(s)] *)
  MatchString : string → bool
}.

(** What package [regexp] documents about the three methods. *)
Record RegexpLaws (re : Regexp) : Prop := {
  names_whole_match : ∃ rest, SubexpNames re = "" :: rest;
  submatch_of_match : ∀ s, MatchString re s = true →
    length (FindStringSubmatch re s) = length (SubexpNames re);
  submatch_of_no_match : ∀ s, MatchString re s = false →
    FindStringSubmatch re s = []
}.

(** ** package logstream *)

Definition MonthLookup : gmap string Z :=
  list_to_map [
    ("january", 1); ("jan", 1);
    ("february", 2); ("feb", 2);
    ("march", 3); ("mar", 3);
    ("april", 4); ("apr", 4);
    ("may", 5);
    ("june", 6); ("jun", 6);
    ("july", 7); ("jul", 7);
    ("august", 8); ("aug", 8);
    ("september", 9); ("sep", 9);
    ("october", 10); ("oct", 10);
    ("november", 11); ("nov", 11);
    ("december", 12); ("dec", 12)
  ].

Definition DayLookup : gmap string Z :=
  list_to_map [
    ("monday", 0); ("mon", 0);
    ("tuesday", 1); ("tue", 1);
    ("wednesday", 2); ("wed", 2);
    ("thursday", 3); ("thu", 3);
    ("friday", 4); ("fri", 4);
    ("saturday", 5); ("sat", 5);
    ("sunday", 6); ("sun", 6)
  ].

(** [digitRegex = regexp.MustCompile(`^\d+$`)]: one or more bytes, each of
    ['0'..'9'] (in Go's syntax [\d] is ASCII only and [$] is the end of the
    text). *)
Fixpoint allDigits (s : string) : bool :=
  match s with
  | EmptyString => true
  | String c s' => GoStrconv.isDigit c && allDigits s'
  end.

Definition digitRegex_MatchString (s : string) : bool :=
  match s with
  | EmptyString => false
  | _ => allDigits s
  end.

(** *** MultipleError *)

Definition MultipleError := list string.

Definition NewMultipleError : MultipleError := [].

Definition MultipleError_Error (m : MultipleError) : string :=
  GoStrings.Join m " :: ".

Definition AddMessage (m : MultipleError) (s : string) : MultipleError :=
  m ++ [s].

Definition IsError (m : MultipleError) : bool :=
  bool_decide (0 < length m)%nat.

(** *** Logfile *)

Abbreviation MatchTranslationMap := (gmap string Z) (only parsing).
Abbreviation SubmatchTranslationMap := (gmap string (gmap string Z)) (only parsing).

Record Logfile := {
  FileName : string;
  (** [nil] until the first parse *)
  MatchParts : option (gmap string Z);
  StringMatchParts : option (gmap string string)
}.

(** [m[k]] on a map that may be [nil]: reading a [nil] map finds nothing. *)
Definition readMap {V} (m : option (gmap string V)) (k : string) : option V :=
  m ≫= (.!! k).

(** The [if]/[else if] chain of the loop body (lines 119-133) for a slot
    with a name: the score, or the message of the error returned. *)
Definition slotScore `{GoPlatform} (translation : SubmatchTranslationMap)
    (name matchValue : string) : string + Z :=
  let lowerValue := GoStrings.ToLower matchValue in
  if decide (name = "MonthName") then
    match MonthLookup !! lowerValue with
    | Some score => inr score
    | None => inl ("Unable to locate month name: " +:+ matchValue)
    end
  else if decide (name = "DayName") then
    match DayLookup !! lowerValue with
    | Some score => inr score
    | None => inl ("Unable to locate day name : " +:+ matchValue)
    end
  else
    match translation !! name with
    | Some submap =>
        match submap !! matchValue with
        | Some score => inr score
        | None =>
            inl ("Unable to locate value: (" +:+ matchValue
                   +:+ ") in translation map: " +:+ name)
        end
    | None =>
        if digitRegex_MatchString matchValue
        then inr (GoStrconv.Atoi matchValue).1
        else inr (-1)
    end.

(** [for i, name := range subexpNames { ... }] from index [i] on, over
    the two maps of the file. *)
Fixpoint populateLoop `{GoPlatform} (matches : list string)
    (translation : SubmatchTranslationMap) (i : nat) (names : list string)
    (raw : gmap string string) (scores : gmap string Z)
    : gmap string string * gmap string Z * outcome string :=
  match names with
  | [] => (raw, scores, Return None)
  | name :: names' =>
      match matches !! i with
      | None => (raw, scores, Panic)
      | Some matchValue =>
          let raw := <[name := matchValue]> raw in
          if decide (name = "") then
            populateLoop matches translation (S i) names' raw scores
          else
            match slotScore translation name matchValue with
            | inl err => (raw, scores, Return (Some err))
            | inr score =>
                populateLoop matches translation (S i) names' raw
                  (<[name := score]> scores)
            end
      end
  end.

(** [func (l *Logfile) PopulateMatchParts(subexpNames, matches, translation)]:
    the file as the call leaves it, and how the call ends. *)
Definition Logfile_PopulateMatchParts `{GoPlatform}
    (subexpNames matches : list string)
    (translation : SubmatchTranslationMap) (l : Logfile)
    : Logfile * outcome string :=
  let scores0 := default ∅ (MatchParts l) in
  let raw0 := default ∅ (StringMatchParts l) in
  let '(raw, scores, out) :=
    populateLoop matches translation 0 subexpNames raw0 scores0 in
  ({| FileName := FileName l;
      MatchParts := Some scores;
      StringMatchParts := Some raw |}, out).

(** *** Logfiles *)

Abbreviation loc := nat (only parsing).
Abbreviation heap := (gmap nat Logfile) (only parsing).
Abbreviation Logfiles := (list nat) (only parsing).

Definition Logfiles_Len (l : Logfiles) : nat := length l.

(** [IndexOf] *)
Fixpoint indexOfFrom (h : heap) (s : string) (i : nat) (l : Logfiles)
    : result Z :=
  match l with
  | [] => Ok (-1)
  | p :: rest =>
      match h !! p with
      | None => Panicked
      | Some lf =>
          if decide (FileName lf = s) then Ok (Z.of_nat i)
          else indexOfFrom h s (S i) rest
      end
  end.

Definition Logfiles_IndexOf (h : heap) (l : Logfiles) (s : string) : result Z :=
  indexOfFrom h s 0 l.

(** [for _, logfile := range l { ... }] of [Logfiles.PopulateMatchParts]. *)
Fixpoint populateAll `{GoPlatform} (fileMatch : Regexp)
    (translation : SubmatchTranslationMap) (subexpNames : list string)
    (l : Logfiles) (h : heap) (errorlist : MultipleError)
    : heap * outcome MultipleError :=
  match l with
  | [] => (h, Return (if IsError errorlist then Some errorlist else None))
  | logfile :: rest =>
      match h !! logfile with
      | None => (h, Panic)
      | Some lf =>
          let matches := FindStringSubmatch fileMatch (FileName lf) in
          let '(lf', out) :=
            Logfile_PopulateMatchParts subexpNames matches translation lf in
          let h' := <[logfile := lf']> h in
          match out with
          | Panic => (h', Panic)
          | Return None =>
              populateAll fileMatch translation subexpNames rest h' errorlist
          | Return (Some err) =>
              populateAll fileMatch translation subexpNames rest h'
                (AddMessage errorlist err)
          end
      end
  end.

(** [func (l Logfiles) PopulateMatchParts(fileMatch, translation)] *)
Definition Logfiles_PopulateMatchParts `{GoPlatform} (fileMatch : Regexp)
    (translation : SubmatchTranslationMap) (l : Logfiles) (h : heap)
    : heap * outcome MultipleError :=
  populateAll fileMatch translation (SubexpNames fileMatch) l h
    NewMultipleError.

(** *** ByPriority *)

Record ByPriority := {
  files : Logfiles;
  Priority : list string
}.

(** [l.MatchParts[part]]: the zero value for a missing key. *)
Definition scorePart (l : Logfile) (part : string) : Z :=
  default 0 (readMap (MatchParts l) part).

(** [for _, part := range b.Priority { ... }]; [first] and [second] are
    what the two pointers hold ([None] for [nil]). *)
Fixpoint lessLoop (first second : option Logfile) (priority : list string)
    : result bool :=
  match priority with
  | [] => Ok false
  | part :: rest =>
      match GoStrings.slicePrefix1 part with
      | Panicked => Panicked
      | Ok pre =>
          let keyed :=
            if decide ("^" = pre) then
              match GoStrings.sliceFrom1 part with
              | Ok part' => Ok (part', negb)
              | Panicked => Panicked
              end
            else Ok (part, fun a : bool => a) in
          match keyed, first, second with
          | Ok (part, convert), Some f, Some s =>
              if scorePart f part <? scorePart s part then Ok (convert true)
              else if scorePart s part <? scorePart f part
                   then Ok (convert false)
                   else lessLoop first second rest
          | _, _, _ => Panicked
          end
      end
  end.

(** [func (b ByPriority) Less(i, j int) bool] *)
Definition Less (h : heap) (b : ByPriority) (i j : nat) : result bool :=
  match files b !! i, files b !! j with
  | Some p, Some q => lessLoop (h !! p) (h !! q) (Priority b)
  | _, _ => Panicked
  end.

(** *** ScanDirectoryForLogfiles *)

(** One call of the function given to [filepath.Walk]. *)
Record WalkEntry := {
  path : string;
  isDir : bool;
  walkErr : bool
}.

(** [&Logfile{FileName: path}] *)
Definition newLogfile (p : string) : Logfile :=
  {| FileName := p; MatchParts := None; StringMatchParts := None |}.

Definition alloc (h : heap) (lf : Logfile) : heap * nat :=
  let p := fresh (dom h) in (<[p := lf]> h, p).

(** The walk is the list of entries [filepath.Walk] visits, in its order. *)
Fixpoint scanWalk (fileMatch : Regexp) (walk : list WalkEntry) (h : heap)
    (found : Logfiles) : heap * Logfiles :=
  match walk with
  | [] => (h, found)
  | e :: rest =>
      if walkErr e || isDir e then scanWalk fileMatch rest h found
      else if MatchString fileMatch (path e) then
        let '(h', p) := alloc h (newLogfile (path e)) in
        scanWalk fileMatch rest h' (found ++ [p])
      else scanWalk fileMatch rest h found
  end.

Definition ScanDirectoryForLogfiles (walk : list WalkEntry)
    (fileMatch : Regexp) (h : heap) : heap * Logfiles :=
  scanWalk fileMatch walk h [].

(** *** Stream differentiation *)

Abbreviation MultipleLogstreamFileList := (gmap string (list nat)) (only parsing).

(** [for _, d := range differentiator { ... }] with the name built so far *)
Fixpoint resolveLoop (l : option Logfile) (differentiator : list string)
    (name : string) : result string :=
  match differentiator with
  | [] => Ok name
  | d :: rest =>
      match l with
      | None => Panicked
      | Some lf =>
          match readMap (StringMatchParts lf) d with
          | Some value => resolveLoop l rest (name +:+ value)
          | None => resolveLoop l rest (name +:+ d)
          end
      end
  end.

Definition ResolveDifferentiatedName (l : option Logfile)
    (differentiator : list string) : result string :=
  resolveLoop l differentiator "".

Fixpoint filterLoop (h : heap) (differentiator : list string)
    (logfiles : Logfiles) (mfs : MultipleLogstreamFileList)
    : result MultipleLogstreamFileList :=
  match logfiles with
  | [] => Ok mfs
  | logfile :: rest =>
      match ResolveDifferentiatedName (h !! logfile) differentiator with
      | Panicked => Panicked
      | Ok name =>
          let mfs :=
            match mfs !! name with
            | Some _ => mfs
            | None => <[name := []]> mfs
            end in
          let mfs := <[name := default [] (mfs !! name) ++ [logfile]]> mfs in
          filterLoop h differentiator rest mfs
      end
  end.

Definition FilterMultipleStreamFiles (h : heap) (logfiles : Logfiles)
    (differentiator : list string) : result MultipleLogstreamFileList :=
  filterLoop h differentiator logfiles ∅.

(** * Concrete platforms and inputs *)

(** A platform for running the model on ASCII text, for either width of
    [int]. An ASCII-only string never reaches [mapUnicodeToLower]
    (lemma [ToLower_ascii]), so its choice here is immaterial. *)
Definition asciiPlatform (w : wordSize) : GoPlatform :=
  {| intWidth := w; mapUnicodeToLower := fun s => s |}.

Definition amd64 : GoPlatform := asciiPlatform W64.
Definition i386 : GoPlatform := asciiPlatform W32.

(** [l.StringMatchParts[n] = v] on a file whose map exists or not. *)
Definition withRaw (l : Logfile) (n v : string) : Logfile :=
  {| FileName := FileName l;
     MatchParts := MatchParts l;
     StringMatchParts := Some (<[n := v]> (default ∅ (StringMatchParts l))) |}.

(** The pattern [(?P<Year>\d+)-(?P<MonthName>\w+)-(?P<Seq>\d+)] on the
    name [2013-Foo-7]: the month is no English month name. *)
Definition ymsNames : list string := [""; "Year"; "MonthName"; "Seq"].
Definition badMonthMatches : list string := ["2013-Foo-7"; "2013"; "Foo"; "7"].
Definition badMonthRun : Logfile * outcome string :=
  Logfile_PopulateMatchParts (H := amd64) ymsNames badMonthMatches ∅
    (newLogfile "2013-Foo-7").

(** The same parse with no capture slot at all. *)
Definition noSlotRun : Logfile * outcome string :=
  Logfile_PopulateMatchParts (H := amd64) [] [] ∅ (newLogfile "2013-Foo-7").

(** The pattern [(?P<DayName>\w+)-(?P<Host>\w+)] on [Funday-web]. *)
Definition badDayRun : Logfile * outcome string :=
  Logfile_PopulateMatchParts (H := amd64) [""; "DayName"; "Host"]
    ["Funday-web"; "Funday"; "web"] ∅ (newLogfile "Funday-web").

(** ** The design document's notions *)

(** The integer a string of decimal digits denotes. *)
Definition decimalValue (v : string) : Z :=
  fold_left (fun acc c => acc * 10 + GoStrconv.digitVal c)
    (list_ascii_of_string v) 0.

(** [v] consists entirely of decimal digits (and of at least one). *)
Definition isDecimal (v : string) : bool :=
  bool_decide (v ≠ "") && forallb GoStrconv.isDigit (list_ascii_of_string v).

(** The score of a slot, or nothing when an error was raised. *)
Definition scoreOf {E} (r : E + Z) : option Z :=
  match r with
  | inr s => Some s
  | inl _ => None
  end.

(** The built-in table of a calendar name. *)
Definition calendarTable (n : string) : option (gmap string Z) :=
  if decide (n = "MonthName") then Some MonthLookup
  else if decide (n = "DayName") then Some DayLookup
  else None.

(** The documented resolution order, with [numeric] for the score of a
    string of digits: calendar names first, then the custom translation,
    then the numeric value, then the sentinel -1. [None] is an error. *)
Definition resolveWith `{GoPlatform} (numeric : Z → Z)
    (tr : gmap string (gmap string Z)) (n v : string) : option Z :=
  match calendarTable n with
  | Some table => table !! GoStrings.ToLower v
  | None =>
      match tr !! n with
      | Some custom => custom !! v
      | None => if isDecimal v then Some (numeric (decimalValue v))
                else Some (-1)
      end
  end.

(** As documented: a string of digits scores its numeric value. *)
Definition resolveDocumented `{GoPlatform} :=
  resolveWith (fun z => z).

(** As computed: the numeric value, or the largest [int] when the value
    is larger. *)
Definition resolveScore `{GoPlatform} := resolveWith (fun z => Z.min z maxInt).

(** English month and day names in their dictionary spelling, and the
    three-letter abbreviations. *)
Definition monthNames : list string :=
  ["January"; "February"; "March"; "April"; "May"; "June"; "July";
   "August"; "September"; "October"; "November"; "December"].

Definition dayNames : list string :=
  ["Monday"; "Tuesday"; "Wednesday"; "Thursday"; "Friday"; "Saturday";
   "Sunday"].

Definition abbreviation (name : string) : string := String.substring 0 3 name.

Definition numbered (first : Z) (names : list string) : list (string * Z) :=
  imap (fun i name => (name, first + Z.of_nat i)) names.

(** January = 1 .. December = 12 *)
Definition englishMonths : list (string * Z) :=
  numbered 1 monthNames ++ numbered 1 (abbreviation <$> monthNames).

(** Monday = 0 .. Sunday = 6 *)
Definition englishDays : list (string * Z) :=
  numbered 0 dayNames ++ numbered 0 (abbreviation <$> dayNames).

(** [v] is [name] in some letter case. *)
Definition sameLetters (v name : string) : Prop :=
  GoStrings.asciiToLower v = GoStrings.asciiToLower name.

(** A custom table for a capture [Level] that knows [high] only. *)
Definition levelTable : gmap string (gmap string Z) :=
  {[ "Level" := {[ "high" := 3 ]} ]}.

(** A sequence number of 2^64 in the file name. *)
Definition hugeSeqRun (w : wordSize) : Logfile * outcome string :=
  Logfile_PopulateMatchParts (H := asciiPlatform w) [""; "Seq"]
    ["app-18446744073709551616"; "18446744073709551616"] ∅
    (newLogfile "app-18446744073709551616").

(** A sequence number of 2^63, one more than the largest 64-bit [int],
    on either platform. *)
Definition overflowRun (w : wordSize) : Logfile * outcome string :=
  Logfile_PopulateMatchParts (H := asciiPlatform w) [""; "Seq"]
    ["app-9223372036854775808"; "9223372036854775808"] ∅
    (newLogfile "app-9223372036854775808").

(** ** Comparing files *)

(** A priority key with the marker [^] in front sorts in descending order. *)
Definition descending (part : string) : bool :=
  match part with
  | String c _ => bool_decide (c = "^"%char)
  | EmptyString => false
  end.

(** The capture a priority key names: the key without its marker. *)
Definition keyName (part : string) : string :=
  match part with
  | String c rest => if bool_decide (c = "^"%char) then rest else part
  | EmptyString => part
  end.

(** The two files have the same score under a key. *)
Definition tied (a b : Logfile) (part : string) : Prop :=
  scorePart a (keyName part) = scorePart b (keyName part).

(** [l.MatchParts[k] = s] *)
Definition withScore (l : Logfile) (k : string) (s : Z) : Logfile :=
  {| FileName := FileName l;
     MatchParts := Some (<[k := s]> (default ∅ (MatchParts l)));
     StringMatchParts := StringMatchParts l |}.

(** The files [2013/August/08/xyz-11.log] and [2013/August/08/xyz-2.log]
    of the package's documentation, parsed with its pattern
    [(?P<Year>\d{4})/(?P<MonthName>\w+)/(?P<Day>\d+)/\w+-(?P<Seq>\d+).log]. *)
Definition docNames : list string := [""; "Year"; "MonthName"; "Day"; "Seq"].
Definition docPriority : list string := ["Year"; "MonthName"; "Day"; "^Seq"].

Definition fileA : Logfile :=
  (Logfile_PopulateMatchParts (H := amd64) docNames
     ["2013/August/08/xyz-11.log"; "2013"; "August"; "08"; "11"] ∅
     (newLogfile "2013/August/08/xyz-11.log")).1.

Definition fileB : Logfile :=
  (Logfile_PopulateMatchParts (H := amd64) docNames
     ["2013/August/08/xyz-2.log"; "2013"; "August"; "08"; "2"] ∅
     (newLogfile "2013/August/08/xyz-2.log")).1.

Definition docHeap : gmap nat Logfile := {[ 0%nat := fileA; 1%nat := fileB ]}.

Definition docByPriority : ByPriority :=
  {| files := [0%nat; 1%nat]; Priority := docPriority |}.

(** Two files of the years 1 and 2, compared by the year and then by a
    key that is the empty string. *)
Definition yearFile (y : Z) : Logfile :=
  {| FileName := "f"; MatchParts := Some {[ "Year" := y ]};
     StringMatchParts := Some ∅ |}.

Definition yearHeap : gmap nat Logfile :=
  {[ 0%nat := yearFile 1; 1%nat := yearFile 2 ]}.

Definition yearThenEmpty : ByPriority :=
  {| files := [0%nat; 1%nat]; Priority := ["Year"; ""] |}.

(** ** Streams *)

(** What a differentiator token stands for in a file: the raw value
    captured under that name when there is one, else the token itself. *)
Definition tokenText (l : Logfile) (d : string) : string :=
  default d (readMap (StringMatchParts l) d).

Definition concatAll (parts : list string) : string :=
  foldr String.append "" parts.

(** The stream identifier of a file. *)
Definition identifier (l : Logfile) (differentiator : list string) : string :=
  concatAll (tokenText l <$> differentiator).

(** The identifier of the file a pointer leads to. *)
Definition identOf (h : gmap nat Logfile) (differentiator : list string)
    (p : nat) : string :=
  match h !! p with
  | Some l => identifier l differentiator
  | None => ""
  end.

(** Three files whose capture [Host] is [a], [a] and [b]. *)
Definition hostFile (name host : string) : Logfile :=
  (Logfile_PopulateMatchParts (H := amd64) [""; "Host"; "Seq"]
     [name; host; "1"] ∅ (newLogfile name)).1.

Definition hostHeap : gmap nat Logfile :=
  {[ 0%nat := hostFile "a-1.log" "a"; 1%nat := hostFile "a-2.log" "a";
     2%nat := hostFile "b-1.log" "b" ]}.

(** ** Parsing a collection *)

(** The parse [Logfiles.PopulateMatchParts] makes of one file. *)
Definition parseOf `{GoPlatform} (re : Regexp)
    (tr : gmap string (gmap string Z)) (l : Logfile)
    : Logfile * outcome string :=
  Logfile_PopulateMatchParts (SubexpNames re)
    (FindStringSubmatch re (FileName l)) tr l.

Definition errorOf {E} (o : outcome E) : option E :=
  match o with
  | Return e => e
  | Panic => None
  end.

(** The message of the file behind [p], when its parse fails. *)
Definition parseError `{GoPlatform} (re : Regexp)
    (tr : gmap string (gmap string Z)) (h : gmap nat Logfile) (p : nat)
    : option string :=
  h !! p ≫= fun l => errorOf (parseOf re tr l).2.

(** The messages of the files that fail to parse, in the order of the
    collection, and those files. *)
Definition parseErrors `{GoPlatform} (re : Regexp)
    (tr : gmap string (gmap string Z)) (h : gmap nat Logfile)
    (fs : list nat) : list string :=
  omap (parseError re tr h) fs.

Definition failing `{GoPlatform} (re : Regexp)
    (tr : gmap string (gmap string Z)) (h : gmap nat Logfile)
    (fs : list nat) : list nat :=
  filter (fun p => is_Some (parseError re tr h p)) fs.

(** Every file of [h] is as in [h0], or as its parse leaves it. *)
Definition parsedOrNot `{GoPlatform} (re : Regexp)
    (tr : gmap string (gmap string Z)) (h0 h : gmap nat Logfile) : Prop :=
  ∀ p, h !! p = h0 !! p ∨
       ∃ l, h0 !! p = Some l ∧ h !! p = Some (parseOf re tr l).1.

(** A pattern given by its group names and by the submatches of the
    names it matches. *)
Fixpoint submatchesIn (table : list (string * list string)) (s : string)
    : option (list string) :=
  match table with
  | [] => None
  | (name, ms) :: rest =>
      if decide (name = s) then Some ms else submatchesIn rest s
  end.

Definition tableRegexp (names : list string)
    (table : list (string * list string)) : Regexp :=
  {| SubexpNames := names;
     FindStringSubmatch := fun s => default [] (submatchesIn table s);
     MatchString := fun s => bool_decide (is_Some (submatchesIn table s)) |}.

(** [(?P<MonthName>[A-Za-z]+)-(?P<Seq>\d+)] on the names of a directory
    that holds [Aug-1], [Foo-2], [Sep-3] and [Bar-4], and [README]. *)
Definition monthSeq : Regexp :=
  tableRegexp [""; "MonthName"; "Seq"]
    [("Aug-1", ["Aug-1"; "Aug"; "1"]);
     ("Foo-2", ["Foo-2"; "Foo"; "2"]);
     ("Sep-3", ["Sep-3"; "Sep"; "3"]);
     ("Bar-4", ["Bar-4"; "Bar"; "4"])].

Definition monthSeqWalk : list WalkEntry :=
  [ {| path := "logs"; isDir := true; walkErr := false |};
    {| path := "Aug-1"; isDir := false; walkErr := false |};
    {| path := "Foo-2"; isDir := false; walkErr := false |};
    {| path := "README"; isDir := false; walkErr := false |};
    {| path := "Sep-3"; isDir := false; walkErr := false |};
    {| path := "Bar-4"; isDir := false; walkErr := false |} ].

Definition monthSeqScan : gmap nat Logfile * list nat :=
  ScanDirectoryForLogfiles monthSeqWalk monthSeq ∅.

(** A collection that holds [README], which the pattern does not match. *)
Definition readmeHeap : gmap nat Logfile :=
  {[ 0%nat := newLogfile "Aug-1"; 1%nat := newLogfile "README" ]}.

(** ** Further operations of the package *)

(** [func (l Logfiles) Swap(i, j int)]: [l[i], l[j] = l[j], l[i]]; both
    elements are read before either is written. *)
Definition Logfiles_Swap (l : list nat) (i j : nat) : result (list nat) :=
  match l !! i, l !! j with
  | Some p, Some q => Ok (<[j := p]> (<[i := q]> l))
  | _, _ => Panicked
  end.

(** The calendar names in the spelling of the tables. *)
Definition lowered (names : list (string * Z)) : list (string * Z) :=
  (fun p => (GoStrings.asciiToLower p.1, p.2)) <$> names.

(** The file behind index [i] of a [ByPriority], when the index is in
    range and the pointer there is not nil. *)
Definition fileAt (h : gmap nat Logfile) (b : ByPriority) (i : nat)
    : option Logfile :=
  files b !! i ≫= fun p => h !! p.

(** The same files under another priority list. *)
Definition withPriority (b : ByPriority) (priority : list string)
    : ByPriority :=
  {| files := files b; Priority := priority |}.

(** The entries of a walk that the scan keeps: no traversal error, no
    directory, and a path the pattern matches. *)
Definition kept (re : Regexp) (e : WalkEntry) : bool :=
  negb (walkErr e || isDir e) && MatchString re (path e).

Definition scannedPaths (re : Regexp) (walk : list WalkEntry) : list string :=
  path <$> filter (fun e => kept re e = true) walk.

(** The file the pointer [p] leads to has the name [s]. *)
Definition namedAt (h : gmap nat Logfile) (s : string) (p : nat) : Prop :=
  FileName <$> h !! p = Some s.

Global Instance namedAt_dec h s p : Decision (namedAt h s p).
Proof. unfold namedAt. apply _. Defined.

(** The number of files in all groups together. *)
Definition groupedFiles (m : gmap string (list nat)) : nat :=
  map_fold (fun _ g n => (length g + n)%nat) 0%nat m.

(** The two files of the documentation compared by a key that is the
    empty string, alone and in front of the key [^Seq]. *)
Definition onlyEmptyKey : ByPriority :=
  {| files := [0%nat; 1%nat]; Priority := [""] |}.

Definition emptyKeyThenSeq : ByPriority :=
  {| files := [0%nat; 1%nat]; Priority := [""; "^Seq"] |}.

(** * Properties *)

(** ** The loop of [Logfile.PopulateMatchParts] *)

Section PopulateLoop.
Context `{GoPlatform}.
Implicit Types (ms names : list string) (tr : gmap string (gmap string Z)).
Implicit Types (raw : gmap string string) (sc : gmap string Z).

(** The loop over [names1 ++ names2] runs over [names1] and, unless that
    returned an error or panicked, goes on over [names2]. *)
Lemma populateLoop_app ms tr names1 names2 i raw sc :
  populateLoop ms tr i (names1 ++ names2) raw sc =
    match populateLoop ms tr i names1 raw sc with
    | (raw1, sc1, Return None) =>
        populateLoop ms tr (i + length names1)%nat names2 raw1 sc1
    | r => r
    end.
Proof.
  revert i raw sc.
  induction names1 as [|n ns IH]; intros i raw sc; simpl.
  - by rewrite Nat.add_0_r.
  - destruct (ms !! i) as [v|]; [|done].
    replace (i + S (length ns))%nat with (S i + length ns)%nat by lia.
    case_decide; [by rewrite IH|].
    destruct (slotScore tr n v); [done|by rewrite IH].
Qed.

(** A name that no slot carries keeps what the maps held for it. *)
Lemma populateLoop_untouched ms tr names i raw sc raw' sc' out n :
  populateLoop ms tr i names raw sc = (raw', sc', out) →
  n ∉ names →
  raw' !! n = raw !! n ∧ sc' !! n = sc !! n.
Proof.
  revert i raw sc.
  induction names as [|m ns IH]; intros i raw sc Hrun Hn; simpl in Hrun.
  { by simplify_eq. }
  apply not_elem_of_cons in Hn as [Hne Hn].
  destruct (ms !! i) as [v|]; [|by simplify_eq].
  case_decide.
  - apply IH in Hrun as [-> ->]; [|done]. by rewrite lookup_insert_ne.
  - destruct (slotScore tr m v) as [e|s].
    + simplify_eq. by rewrite lookup_insert_ne.
    + apply IH in Hrun as [-> ->]; [|done]. by rewrite !lookup_insert_ne.
Qed.

(** After a run without error, the last slot of each name decides what
    the maps hold for it. *)
Lemma populateLoop_success ms tr names i raw sc raw' sc' k n v :
  populateLoop ms tr i names raw sc = (raw', sc', Return None) →
  names !! k = Some n →
  ms !! (i + k)%nat = Some v →
  n ∉ drop (S k) names →
  raw' !! n = Some v ∧
  (n ≠ "" → ∃ s, slotScore tr n v = inr s ∧ sc' !! n = Some s).
Proof.
  revert i raw sc k.
  induction names as [|m ns IH]; intros i raw sc k Hrun Hk Hv Hlast;
    [done|].
  simpl in Hrun. destruct k as [|k]; simpl in *.
  - simplify_eq. rewrite Nat.add_0_r in Hv. rewrite Hv in Hrun.
    rewrite drop_0 in Hlast.
    case_decide.
    + apply populateLoop_untouched with (n := n) in Hrun as [-> _]; [|done].
      by rewrite lookup_insert_eq.
    + destruct (slotScore tr n v) as [e|s]; [done|].
      apply populateLoop_untouched with (n := n) in Hrun as [-> ->]; [|done].
      rewrite !lookup_insert_eq. eauto.
  - replace (i + S k)%nat with (S i + k)%nat in Hv by lia.
    destruct (ms !! i) as [w|]; [|done].
    case_decide; [by eapply IH|].
    destruct (slotScore tr m w); [done|by eapply IH].
Qed.

(** A run that returns an error stopped at a named slot whose lookup
    failed, having run without error over the slots before it. *)
Lemma populateLoop_failure ms tr names i raw sc raw' sc' e :
  populateLoop ms tr i names raw sc = (raw', sc', Return (Some e)) →
  ∃ k n v raw1,
    names !! k = Some n ∧ ms !! (i + k)%nat = Some v ∧ n ≠ "" ∧
    slotScore tr n v = inl e ∧
    populateLoop ms tr i (take k names) raw sc = (raw1, sc', Return None) ∧
    raw' = <[n := v]> raw1.
Proof.
  revert i raw sc.
  induction names as [|m ns IH]; intros i raw sc Hrun; [done|].
  simpl in Hrun. destruct (ms !! i) as [w|] eqn:Hw; [|done].
  assert (∀ raw2 sc2,
    populateLoop ms tr (S i) ns raw2 sc2 = (raw', sc', Return (Some e)) →
    (∀ k, populateLoop ms tr i (take (S k) (m :: ns)) raw sc
          = populateLoop ms tr (S i) (take k ns) raw2 sc2) →
    ∃ k n v raw1,
      (m :: ns) !! k = Some n ∧ ms !! (i + k)%nat = Some v ∧ n ≠ "" ∧
      slotScore tr n v = inl e ∧
      populateLoop ms tr i (take k (m :: ns)) raw sc
        = (raw1, sc', Return None) ∧
      raw' = <[n := v]> raw1) as Hnext.
  { intros raw2 sc2 Hrest Hpre.
    apply IH in Hrest as (k & n & v & raw1 & Hk & Hv & Hn & He & Hrun1 & ->).
    exists (S k), n, v, raw1. rewrite Hpre.
    replace (i + S k)%nat with (S i + k)%nat by lia. done. }
  case_decide as Hm.
  - eapply Hnext; [done|]. intros k. simpl. rewrite Hw.
    by rewrite decide_True.
  - destruct (slotScore tr m w) as [e'|s] eqn:Hs.
    + simplify_eq. exists 0%nat, m, w, raw.
      by rewrite Nat.add_0_r.
    + eapply Hnext; [done|]. intros k. simpl. rewrite Hw.
      by rewrite decide_False, Hs.
Qed.

(** The loop reads neither map: what it writes lies over what was there. *)
Lemma populateLoop_frame ms tr names i raw sc :
  populateLoop ms tr i names raw sc =
    let '(r, s, out) := populateLoop ms tr i names ∅ ∅ in
    (r ∪ raw, s ∪ sc, out).
Proof.
  revert i raw sc.
  induction names as [|m ns IH]; intros i raw sc; simpl.
  { by rewrite !(left_id_L ∅ (∪)). }
  destruct (ms !! i) as [w|]; [|by rewrite !(left_id_L ∅ (∪))].
  assert (∀ (V : Type) (k : string) (x : V) (a b : gmap string V),
    a ∪ <[k := x]> ∅ ∪ b = a ∪ <[k := x]> b) as Hins.
  { intros V k x a b. rewrite <- (assoc_L (∪)). f_equal.
    rewrite insert_empty. symmetry. apply insert_union_singleton_l. }
  case_decide.
  - rewrite (IH _ (<[m:=w]> raw)), (IH _ (<[m:=w]> ∅)).
    destruct (populateLoop ms tr (S i) ns ∅ ∅) as [[r s] out].
    by rewrite Hins, (right_id_L ∅ (∪)).
  - destruct (slotScore tr m w) as [e|s0].
    + rewrite (left_id_L ∅ (∪) sc), insert_empty.
      by rewrite <- insert_union_singleton_l.
    + rewrite (IH _ (<[m:=w]> raw)), (IH _ (<[m:=w]> ∅)).
      destruct (populateLoop ms tr (S i) ns ∅ ∅) as [[r s] out].
      by rewrite !Hins.
Qed.

(** Running the loop again over its own result changes nothing. *)
Lemma populateLoop_idemp ms tr names i raw sc raw' sc' out :
  populateLoop ms tr i names raw sc = (raw', sc', out) →
  populateLoop ms tr i names raw' sc' = (raw', sc', out).
Proof.
  rewrite populateLoop_frame, (populateLoop_frame _ _ _ _ raw' sc').
  destruct (populateLoop ms tr i names ∅ ∅) as [[r s] o].
  intros [= <- <- <-].
  by rewrite !(assoc_L (∪)), !(idemp_L (∪)).
Qed.

(** The loop panics exactly when a slot has no submatch. *)
Lemma populateLoop_in_bounds ms tr names i raw sc :
  (i + length names ≤ length ms)%nat →
  (populateLoop ms tr i names raw sc).2 ≠ Panic.
Proof.
  revert i raw sc.
  induction names as [|m ns IH]; intros i raw sc Hlen; simpl in *; [done|].
  destruct (ms !! i) as [w|] eqn:Hw.
  - case_decide; [apply IH; lia|].
    destruct (slotScore tr m w); [done|apply IH; lia].
  - apply lookup_ge_None in Hw. lia.
Qed.

Lemma populateLoop_out_of_bounds ms tr name names i raw sc :
  (length ms ≤ i)%nat →
  populateLoop ms tr i (name :: names) raw sc = (raw, sc, Panic).
Proof. intros Hi. simpl. by rewrite (proj2 (lookup_ge_None ms i)). Qed.

End PopulateLoop.

(** ** One file: [Logfile.PopulateMatchParts] *)

Section ParseOneFile.
Context `{GoPlatform}.
Implicit Types (ms names : list string) (tr : gmap string (gmap string Z)).
Implicit Types (l : Logfile).

Lemma readMap_default {V} (m : option (gmap string V)) k :
  readMap m k = default ∅ m !! k.
Proof. by destruct m. Qed.

(** The call in terms of its loop. *)
Lemma Logfile_PopulateMatchParts_loop names ms tr l raw sc out :
  populateLoop ms tr 0 names (default ∅ (StringMatchParts l))
    (default ∅ (MatchParts l)) = (raw, sc, out) →
  Logfile_PopulateMatchParts names ms tr l =
    ({| FileName := FileName l; MatchParts := Some sc;
        StringMatchParts := Some raw |}, out).
Proof. unfold Logfile_PopulateMatchParts. by intros ->. Qed.

Lemma Logfile_PopulateMatchParts_inv names ms tr l l' out :
  Logfile_PopulateMatchParts names ms tr l = (l', out) →
  ∃ raw sc,
    populateLoop ms tr 0 names (default ∅ (StringMatchParts l))
      (default ∅ (MatchParts l)) = (raw, sc, out) ∧
    l' = {| FileName := FileName l; MatchParts := Some sc;
            StringMatchParts := Some raw |}.
Proof.
  unfold Logfile_PopulateMatchParts.
  destruct (populateLoop _ _ _ _ _ _) as [[raw sc] o].
  intros [= <- <-]. eauto.
Qed.

Lemma Logfile_PopulateMatchParts_FileName names ms tr l :
  FileName (Logfile_PopulateMatchParts names ms tr l).1 = FileName l.
Proof.
  unfold Logfile_PopulateMatchParts.
  by destruct (populateLoop _ _ _ _ _ _) as [[raw sc] o].
Qed.

(** Parsing a file again, with the same slots, leaves it as the first
    parse left it and ends the same way. *)
Lemma Logfile_PopulateMatchParts_idemp names ms tr l :
  Logfile_PopulateMatchParts names ms tr
    (Logfile_PopulateMatchParts names ms tr l).1
  = Logfile_PopulateMatchParts names ms tr l.
Proof.
  destruct (Logfile_PopulateMatchParts names ms tr l) as [l' out] eqn:Hrun.
  apply Logfile_PopulateMatchParts_inv in Hrun as (raw & sc & Hloop & ->).
  apply populateLoop_idemp in Hloop.
  by erewrite Logfile_PopulateMatchParts_loop by exact Hloop.
Qed.

(** C1 (as the code has it). When [Logfile.PopulateMatchParts] returns an
    error, the error is that of the first slot [k] whose calendar or
    translation lookup fails, and the file keeps every entry written up
    to there: its score map [MatchParts] is the one a successful parse of
    the slots before [k] leaves, and its raw map [StringMatchParts] is
    the one that parse leaves with the raw value of slot [k] added.
    Nothing is rolled back. *)
Theorem parse_error_keeps_earlier_slots names ms tr l l' e :
  Logfile_PopulateMatchParts names ms tr l = (l', Return (Some e)) →
  ∃ k n v l1,
    names !! k = Some n ∧ ms !! k = Some v ∧ n ≠ "" ∧
    slotScore tr n v = inl e ∧
    Logfile_PopulateMatchParts (take k names) ms tr l = (l1, Return None) ∧
    l' = withRaw l1 n v.
Proof.
  intros Hrun.
  apply Logfile_PopulateMatchParts_inv in Hrun as (raw & sc & Hloop & ->).
  apply populateLoop_failure in Hloop
    as (k & n & v & raw1 & Hk & Hv & Hn & He & Hpre & ->).
  exists k, n, v,
    {| FileName := FileName l; MatchParts := Some sc;
       StringMatchParts := Some raw1 |}.
  split_and!; try done.
  by apply Logfile_PopulateMatchParts_loop.
Qed.

(** C2 (as the code has it). A lookup failure at a slot ends the parse
    of the file there: when the slots [names1] before it parse without
    error, [Logfile.PopulateMatchParts] stores the raw value of the
    failing slot and returns its error at once, whatever slots
    [names2] follow; no later slot is processed, so a name that only
    later slots carry has neither a raw value nor a score stored. *)
Theorem lookup_failure_ends_parse names1 n names2 ms tr l l1 v e :
  Logfile_PopulateMatchParts names1 ms tr l = (l1, Return None) →
  ms !! length names1 = Some v →
  n ≠ "" →
  slotScore tr n v = inl e →
  Logfile_PopulateMatchParts (names1 ++ n :: names2) ms tr l
    = (withRaw l1 n v, Return (Some e)) ∧
  ∀ m, m ∉ names1 → m ≠ n →
    readMap (StringMatchParts (withRaw l1 n v)) m
      = readMap (StringMatchParts l) m ∧
    readMap (MatchParts (withRaw l1 n v)) m = readMap (MatchParts l) m.
Proof.
  intros Hrun Hv Hn He.
  apply Logfile_PopulateMatchParts_inv in Hrun as (raw & sc & Hloop & ->).
  split.
  - unfold Logfile_PopulateMatchParts.
    rewrite populateLoop_app, Hloop. simpl.
    by rewrite Hv, decide_False, He.
  - intros m Hm Hmn.
    eapply populateLoop_untouched in Hloop as [Hraw Hsc]; [|exact Hm].
    simpl. rewrite lookup_insert_ne by done.
    by rewrite Hraw, Hsc, !readMap_default.
Qed.

End ParseOneFile.

(** C1, witness: the parse of [2013-Foo-7] fails at its third slot. *)
Lemma parse_error_keeps_earlier_slots_witness :
  ∃ k n v l1,
    ymsNames !! k = Some n ∧ badMonthMatches !! k = Some v ∧ n ≠ "" ∧
    slotScore (H := amd64) ∅ n v = inl "Unable to locate month name: Foo" ∧
    Logfile_PopulateMatchParts (H := amd64) (take k ymsNames)
      badMonthMatches ∅ (newLogfile "2013-Foo-7") = (l1, Return None) ∧
    badMonthRun.1 = withRaw l1 n v.
Proof.
  apply (parse_error_keeps_earlier_slots (H := amd64)
           ymsNames badMonthMatches ∅ (newLogfile "2013-Foo-7")).
  vm_compute. reflexivity.
Defined.

(** C1, counterexample: after the failed parse of [2013-Foo-7] the file
    holds the score of slot [Year] and three raw values, where a parse of
    no slot holds none. *)
Lemma parse_error_leaves_partial_data :
  badMonthRun.2 = Return (Some "Unable to locate month name: Foo") ∧
  MatchParts badMonthRun.1 = Some {[ "Year" := 2013 ]} ∧
  StringMatchParts badMonthRun.1
    = Some {[ "" := "2013-Foo-7"; "Year" := "2013"; "MonthName" := "Foo" ]} ∧
  MatchParts noSlotRun.1 = Some ∅ ∧
  StringMatchParts noSlotRun.1 = Some ∅ ∧
  MatchParts badMonthRun.1 ≠ MatchParts noSlotRun.1 ∧
  StringMatchParts badMonthRun.1 ≠ StringMatchParts noSlotRun.1.
Proof. split_and!; by vm_compute. Qed.

(** C2, witness: in [Funday-web] the slot [DayName] fails and the slot
    [Host] after it is never reached. *)
Lemma lookup_failure_ends_parse_witness :
  Logfile_PopulateMatchParts (H := amd64) ([""] ++ "DayName" :: ["Host"])
    ["Funday-web"; "Funday"; "web"] ∅ (newLogfile "Funday-web")
  = (withRaw (Logfile_PopulateMatchParts (H := amd64) [""]
                ["Funday-web"; "Funday"; "web"] ∅
                (newLogfile "Funday-web")).1 "DayName" "Funday",
     Return (Some "Unable to locate day name : Funday")).
Proof.
  refine (proj1 (lookup_failure_ends_parse (H := amd64) [""] "DayName"
                   ["Host"] ["Funday-web"; "Funday"; "web"] ∅
                   (newLogfile "Funday-web") _ "Funday" _ _ _ _ _));
    by vm_compute.
Defined.

(** C2, counterexample: the slot [Host] follows the failing slot
    [DayName]; the call returns the error and has stored neither the raw
    value nor a score of [Host]. *)
Lemma slot_after_failure_not_processed :
  badDayRun.2 = Return (Some "Unable to locate day name : Funday") ∧
  readMap (StringMatchParts badDayRun.1) "DayName" = Some "Funday" ∧
  readMap (StringMatchParts badDayRun.1) "Host" = None ∧
  readMap (MatchParts badDayRun.1) "Host" = None.
Proof. split_and!; by vm_compute. Qed.

(** ** Bytes, letter case and digits *)

Section Strings.
Context `{GoPlatform}.
Import GoStrings GoStrconv.

Lemma ToLower_ascii s : isASCII s = true → ToLower s = asciiToLower s.
Proof. unfold ToLower. by intros ->. Qed.

Lemma isASCIIByte_lowerByte c : isASCIIByte (lowerByte c) = isASCIIByte c.
Proof. by destruct c as [[] [] [] [] [] [] [] []]. Qed.

Lemma isASCII_asciiToLower s : isASCII (asciiToLower s) = isASCII s.
Proof.
  induction s as [|c s IH]; simpl; [done|].
  by rewrite isASCIIByte_lowerByte, IH.
Qed.

Lemma lowerByte_idemp c : lowerByte (lowerByte c) = lowerByte c.
Proof. by destruct c as [[] [] [] [] [] [] [] []]. Qed.

Lemma asciiToLower_idemp s : asciiToLower (asciiToLower s) = asciiToLower s.
Proof.
  induction s as [|c s IH]; simpl; [done|].
  by rewrite lowerByte_idemp, IH.
Qed.

(** Tokens that differ in letter case only are lowered to one string. *)
Lemma ToLower_sameLetters v name :
  isASCII name = true → sameLetters v name →
  ToLower v = asciiToLower name.
Proof.
  intros Hname Hsame. unfold sameLetters in Hsame.
  rewrite ToLower_ascii; [done|].
  by rewrite <- isASCII_asciiToLower, Hsame, isASCII_asciiToLower.
Qed.

Lemma digitVal_range c : isDigit c = true → 0 ≤ digitVal c ≤ 9.
Proof.
  unfold isDigit, digitVal. intros [H1 H2]%andb_true_iff.
  apply N.leb_le in H1, H2. lia.
Qed.

Lemma forallb_isDigit s :
  forallb isDigit (list_ascii_of_string s) = allDigits s.
Proof. induction s as [|c s IH]; simpl; [done|]. by rewrite IH. Qed.

Lemma isDecimal_allDigits v :
  isDecimal v = digitRegex_MatchString v.
Proof.
  unfold isDecimal, digitRegex_MatchString. rewrite forallb_isDigit.
  destruct v as [|c v]; [done|]. by rewrite bool_decide_true.
Qed.

Lemma digitsFrom_fold s acc :
  allDigits s = true →
  digitsFrom acc s
    = Some (fold_left (fun a c => a * 10 + digitVal c)
              (list_ascii_of_string s) acc).
Proof.
  revert acc. induction s as [|c s IH]; intros acc; simpl; [done|].
  intros [-> Hs]%andb_true_iff. by apply IH.
Qed.

Lemma fold_digits_nonneg s acc :
  allDigits s = true → 0 ≤ acc →
  0 ≤ fold_left (fun a c => a * 10 + digitVal c)
        (list_ascii_of_string s) acc.
Proof.
  revert acc. induction s as [|c s IH]; intros acc; simpl; [done|].
  intros [Hc Hs]%andb_true_iff Hacc.
  apply IH; [done|]. apply digitVal_range in Hc. lia.
Qed.

Lemma decimalValue_nonneg v : isDecimal v = true → 0 ≤ decimalValue v.
Proof.
  rewrite isDecimal_allDigits. unfold digitRegex_MatchString.
  destruct v as [|c v]; [done|]. intros Hd.
  by apply fold_digits_nonneg.
Qed.

(** A zero in front does not change the number denoted. *)
Lemma decimalValue_leading_zero v :
  decimalValue (String "0" v) = decimalValue v.
Proof. done. Qed.

(** [strconv.Atoi] on a string of digits: the number denoted, or the
    largest [int] with [ErrRange] when the number is larger. *)
Lemma Atoi_decimal v :
  isDecimal v = true →
  Atoi v = (Z.min (decimalValue v) maxInt,
            if decide (decimalValue v ≤ maxInt) then None
            else Some ErrRange).
Proof.
  rewrite isDecimal_allDigits. intros Hd.
  assert (Atoi v =
    match digitsFrom 0 v with
    | None => (0, Some ErrSyntax)
    | Some n => if maxInt <? n then (maxInt, Some ErrRange) else (n, None)
    end) as ->.
  { destruct v as [|c v]; [done|].
    simpl in Hd. apply andb_true_iff in Hd as [Hc _].
    by destruct c as [[] [] [] [] [] [] [] []]. }
  destruct v as [|c v]; [done|].
  rewrite digitsFrom_fold by done. fold (decimalValue (String c v)).
  case_decide; destruct (Z.ltb_spec maxInt (decimalValue (String c v)));
    try lia; f_equal; lia.
Qed.

End Strings.

(** ** The score of one slot *)

Section Scores.
Context `{GoPlatform}.
Import GoStrings GoStrconv.
Implicit Types (ms names : list string) (tr : gmap string (gmap string Z)).

Lemma calendarTable_other n :
  n ≠ "MonthName" → n ≠ "DayName" → calendarTable n = None.
Proof. intros. unfold calendarTable. by rewrite !decide_False. Qed.

(** The chain of tests in the loop body computes the documented order
    of resolution, a string of digits scoring [strconv.Atoi]'s value. *)
Lemma slotScore_resolveScore tr n v :
  scoreOf (slotScore tr n v) = resolveScore tr n v.
Proof.
  unfold slotScore, resolveScore, resolveWith, calendarTable.
  repeat case_decide.
  - by destruct (MonthLookup !! _).
  - by destruct (DayLookup !! _).
  - destruct (tr !! n) as [custom|]; [by destruct (custom !! v)|].
    rewrite <- isDecimal_allDigits.
    destruct (isDecimal v) eqn:Hd; [|done].
    by rewrite Atoi_decimal.
Qed.

Lemma slotScore_inr tr n v s :
  resolveScore tr n v = Some s → slotScore tr n v = inr s.
Proof.
  rewrite <- slotScore_resolveScore.
  destruct (slotScore tr n v); naive_solver.
Qed.

Lemma slotScore_inl tr n v :
  resolveScore tr n v = None → ∃ e, slotScore tr n v = inl e.
Proof.
  rewrite <- slotScore_resolveScore.
  destruct (slotScore tr n v); naive_solver.
Qed.

(** C3 (as the code has it). At every named capture slot (name [n],
    value [v]) the loop of [Logfile.PopulateMatchParts] stores the raw
    value and resolves the score in the order of [resolveScore]:
    [MonthName] and [DayName] use the calendar table only, and fail
    when the lowered value is absent, whatever the custom map holds;
    else a custom sub-table for [n] is used with [v] as it is, and
    fails when [v] is absent; else a [v] of decimal digits scores its
    numeric value, or the largest [int] when the value is larger; else
    the score is -1 and no error is raised. A score is stored and the
    loop goes on; a failure returns an error. *)
Theorem score_resolution_order ms tr i n v names raw sc :
  n ≠ "" →
  ms !! i = Some v →
  match resolveScore tr n v with
  | Some s =>
      populateLoop ms tr i (n :: names) raw sc
        = populateLoop ms tr (S i) names (<[n := v]> raw) (<[n := s]> sc)
  | None =>
      ∃ e, populateLoop ms tr i (n :: names) raw sc
             = (<[n := v]> raw, sc, Return (Some e))
  end.
Proof.
  intros Hn Hv. simpl. rewrite Hv, decide_False by done.
  destruct (resolveScore tr n v) as [s|] eqn:Hs.
  - by rewrite (slotScore_inr _ _ _ _ Hs).
  - destruct (slotScore_inl _ _ _ Hs) as [e ->]. eauto.
Qed.

(** C5 (as the code has it). A named capture slot that is reached,
    whose name has no calendar and no custom handling and whose raw
    value [v] consists of decimal digits, is stored with the integer
    [v] denotes when that is at most the largest [int], and with the
    largest [int] otherwise; zeros in front do not matter. The slots
    before it are [names1], the ones after it [names2]. *)
Theorem digit_score_saturates names1 n names2 ms tr l l1 v :
  Logfile_PopulateMatchParts names1 ms tr l = (l1, Return None) →
  ms !! length names1 = Some v →
  n ∉ names2 →
  n ≠ "" → n ≠ "MonthName" → n ≠ "DayName" → tr !! n = None →
  isDecimal v = true →
  readMap
    (MatchParts
       (Logfile_PopulateMatchParts (names1 ++ n :: names2) ms tr l).1) n
    = Some (if decide (decimalValue v ≤ maxInt) then decimalValue v
            else maxInt) ∧
  decimalValue (String "0" v) = decimalValue v.
Proof.
  intros Hrun Hv Hlast Hn Hmonth Hday Htr Hd.
  split; [|done].
  replace (if decide (decimalValue v ≤ maxInt) then decimalValue v
           else maxInt)
    with (Z.min (decimalValue v) maxInt) by (case_decide; lia).
  apply Logfile_PopulateMatchParts_inv in Hrun as (raw & sc & Hloop & _).
  unfold Logfile_PopulateMatchParts.
  rewrite populateLoop_app, Hloop. simpl.
  rewrite Hv, decide_False by done.
  erewrite slotScore_inr; last first.
  { unfold resolveScore, resolveWith.
    by rewrite calendarTable_other, Htr, Hd. }
  destruct (populateLoop _ _ _ names2 _ _) as [[raw' sc'] out] eqn:Hrest.
  eapply populateLoop_untouched in Hrest as [_ Hsc]; [|exact Hlast].
  simpl. by rewrite Hsc, lookup_insert_eq.
Qed.

Lemma englishMonths_in_table :
  Forall (fun p => isASCII p.1 = true ∧
                   MonthLookup !! asciiToLower p.1 = Some p.2)
    englishMonths.
Proof. vm_compute. repeat constructor. Qed.

Lemma englishDays_in_table :
  Forall (fun p => isASCII p.1 = true ∧
                   DayLookup !! asciiToLower p.1 = Some p.2)
    englishDays.
Proof. vm_compute. repeat constructor. Qed.

Lemma slotScore_MonthName tr v :
  scoreOf (slotScore tr "MonthName" v) = MonthLookup !! ToLower v.
Proof. by rewrite slotScore_resolveScore. Qed.

Lemma slotScore_DayName tr v :
  scoreOf (slotScore tr "DayName" v) = DayLookup !! ToLower v.
Proof. by rewrite slotScore_resolveScore. Qed.

(** C4. The calendar lookups ignore letter case and the custom lookup
    does not. For [MonthName] and [DayName] the lowered token is looked
    up, so every full or abbreviated English month name scores 1..12
    and every day name 0..6 in any letter case, and two ASCII tokens
    that differ in case only score alike. A custom sub-table is asked
    for the token as it is: [high] and [HIGH] differ in case only, and
    the table that knows [high] scores the one and fails on the
    other. *)
Theorem calendar_ignores_case_custom_does_not tr :
  (∀ v name k, (name, k) ∈ englishMonths → sameLetters v name →
     slotScore tr "MonthName" v = inr k) ∧
  (∀ v name k, (name, k) ∈ englishDays → sameLetters v name →
     slotScore tr "DayName" v = inr k) ∧
  (∀ v, scoreOf (slotScore tr "MonthName" v) = MonthLookup !! ToLower v) ∧
  (∀ v, scoreOf (slotScore tr "DayName" v) = DayLookup !! ToLower v) ∧
  (∀ v w, isASCII w = true → sameLetters v w →
     scoreOf (slotScore tr "MonthName" v)
       = scoreOf (slotScore tr "MonthName" w) ∧
     scoreOf (slotScore tr "DayName" v)
       = scoreOf (slotScore tr "DayName" w)) ∧
  (∀ n custom v, n ≠ "MonthName" → n ≠ "DayName" →
     tr !! n = Some custom →
     scoreOf (slotScore tr n v) = custom !! v) ∧
  (sameLetters "HIGH" "high" ∧
   slotScore levelTable "Level" "high" = inr 3 ∧
   slotScore levelTable "Level" "HIGH"
     = inl "Unable to locate value: (HIGH) in translation map: Level").
Proof.
  split_and!.
  - intros v name k Hin Hsame.
    pose proof englishMonths_in_table as Htable.
    rewrite Forall_forall in Htable.
    destruct (Htable _ Hin) as [Hascii Hk]; simpl in *.
    apply slotScore_inr. unfold resolveScore, resolveWith. simpl.
    by rewrite (ToLower_sameLetters v name).
  - intros v name k Hin Hsame.
    pose proof englishDays_in_table as Htable.
    rewrite Forall_forall in Htable.
    destruct (Htable _ Hin) as [Hascii Hk]; simpl in *.
    apply slotScore_inr. unfold resolveScore, resolveWith. simpl.
    by rewrite (ToLower_sameLetters v name).
  - apply slotScore_MonthName.
  - apply slotScore_DayName.
  - intros v w Hw Hsame.
    rewrite !slotScore_MonthName, !slotScore_DayName.
    rewrite (ToLower_sameLetters v w), (ToLower_ascii w); done.
  - intros n custom v Hmonth Hday Hcustom.
    rewrite slotScore_resolveScore. unfold resolveScore, resolveWith.
    by rewrite calendarTable_other, Hcustom.
  - done.
  - done.
  - done.
Qed.

End Scores.

(** C3, witness: the slot [Year] of [2013-Foo-7]. *)
Lemma score_resolution_order_witness :
  populateLoop (H := amd64) badMonthMatches ∅ 1 ["Year"; "MonthName"] ∅ ∅
    = populateLoop (H := amd64) badMonthMatches ∅ 2 ["MonthName"]
        (<["Year" := "2013"]> ∅) (<["Year" := 2013]> ∅).
Proof.
  exact (score_resolution_order (H := amd64) badMonthMatches ∅ 1 "Year"
           "2013" ["MonthName"] ∅ ∅ ltac:(done) eq_refl).
Defined.

(** C3, counterexample: the digits of 2^64 in a slot [Seq] that has no
    calendar and no custom handling. Its numeric value is 2^64; the
    score stored is 2^63-1. *)
Lemma huge_digits_do_not_score_their_value :
  resolveDocumented (H := amd64) ∅ "Seq" "18446744073709551616"
    = Some 18446744073709551616 ∧
  slotScore (H := amd64) ∅ "Seq" "18446744073709551616"
    = inr 9223372036854775807 ∧
  (hugeSeqRun W64).2 = Return None ∧
  MatchParts (hugeSeqRun W64).1 = Some {[ "Seq" := 9223372036854775807 ]}.
Proof. split_and!; by vm_compute. Qed.

(** C4, witness: [FEB] is February in another letter case. *)
Lemma calendar_ignores_case_custom_does_not_witness :
  slotScore (H := amd64) levelTable "MonthName" "FEB" = inr 2.
Proof.
  refine (proj1 (calendar_ignores_case_custom_does_not (H := amd64)
                   levelTable) "FEB" "Feb" 2 _ _); [|by vm_compute].
  vm_compute. set_solver.
Defined.

(** C5, witness: the slot [Seq] of [app-007.log] scores 7. *)
Lemma digit_score_saturates_witness :
  readMap
    (MatchParts
       (Logfile_PopulateMatchParts (H := amd64) ([""] ++ "Seq" :: [])
          ["app-007"; "007"] ∅ (newLogfile "app-007")).1) "Seq"
    = Some (if decide (decimalValue "007" ≤ maxInt (H := amd64))
            then decimalValue "007" else maxInt (H := amd64)).
Proof.
  refine (proj1 (digit_score_saturates (H := amd64) [""] "Seq" []
                   ["app-007"; "007"] ∅ (newLogfile "app-007")
                   (Logfile_PopulateMatchParts (H := amd64) [""]
                      ["app-007"; "007"] ∅ (newLogfile "app-007")).1 "007"
                   _ _ _ _ _ _ _ _)); try done.
  apply not_elem_of_nil.
Defined.

(** C5, counterexample: the digits of 2^63 in a slot [Seq]. The integer
    denoted is 9223372036854775808; the score stored is
    9223372036854775807 where [int] has 64 bits and 2147483647 where
    it has 32. *)
Lemma digits_beyond_int_are_not_stored_exactly :
  isDecimal "9223372036854775808" = true ∧
  decimalValue "9223372036854775808" = 9223372036854775808 ∧
  (overflowRun W64).2 = Return None ∧
  MatchParts (overflowRun W64).1 = Some {[ "Seq" := 9223372036854775807 ]} ∧
  (overflowRun W32).2 = Return None ∧
  MatchParts (overflowRun W32).1 = Some {[ "Seq" := 2147483647 ]}.
Proof. split_and!; by vm_compute. Qed.

(** ** [ByPriority.Less] *)

Section Comparator.
Implicit Types (a c : Logfile) (priority pre post : list string).

(** One turn of the loop at a key that is not empty. *)
Lemma lessLoop_key a c part rest :
  part ≠ "" →
  lessLoop (Some a) (Some c) (part :: rest) =
    if scorePart a (keyName part) <? scorePart c (keyName part)
    then Ok (xorb (descending part) true)
    else if scorePart c (keyName part) <? scorePart a (keyName part)
         then Ok (xorb (descending part) false)
         else lessLoop (Some a) (Some c) rest.
Proof.
  destruct part as [|ch part]; [done|]. intros _.
  unfold descending, keyName.
  cbn [lessLoop GoStrings.slicePrefix1 GoStrings.sliceFrom1].
  destruct (decide ("^" = String ch "")) as [Heq|Hne].
  - injection Heq as <-. by rewrite bool_decide_true.
  - by rewrite bool_decide_false by congruence.
Qed.

Lemma lessLoop_empty_key first second rest :
  lessLoop first second ("" :: rest) = Panicked.
Proof. done. Qed.

(** Keys on which the files tie are passed over. *)
Lemma lessLoop_tied_prefix a c pre priority :
  Forall (fun k => k ≠ "" ∧ tied a c k) pre →
  lessLoop (Some a) (Some c) (pre ++ priority)
    = lessLoop (Some a) (Some c) priority.
Proof.
  induction 1 as [|k pre [Hk Htied] _ IH]; [done|].
  rewrite <- app_comm_cons, lessLoop_key by done.
  unfold tied in Htied. rewrite Htied, !Z.ltb_irrefl. exact IH.
Qed.

(** The first key on which the scores differ decides. *)
Lemma lessLoop_decided a c pre part post :
  Forall (fun k => k ≠ "" ∧ tied a c k) pre →
  part ≠ "" → ¬ tied a c part →
  lessLoop (Some a) (Some c) (pre ++ part :: post)
    = Ok (xorb (descending part)
            (scorePart a (keyName part) <? scorePart c (keyName part))).
Proof.
  intros Hpre Hpart Hdiff.
  rewrite lessLoop_tied_prefix, lessLoop_key by done.
  unfold tied in Hdiff.
  destruct (Z.ltb_spec (scorePart a (keyName part))
              (scorePart c (keyName part))); [done|].
  destruct (Z.ltb_spec (scorePart c (keyName part))
              (scorePart a (keyName part))); [done|lia].
Qed.

Lemma lessLoop_all_tied a c priority :
  Forall (fun k => k ≠ "" ∧ tied a c k) priority →
  lessLoop (Some a) (Some c) priority = Ok false.
Proof.
  intros Hall. rewrite <- (app_nil_r priority).
  by rewrite lessLoop_tied_prefix.
Qed.

(** The loop sees the files through their scores only. *)
Lemma lessLoop_ext a a' c c' priority :
  (∀ k, scorePart a k = scorePart a' k) →
  (∀ k, scorePart c k = scorePart c' k) →
  lessLoop (Some a) (Some c) priority
    = lessLoop (Some a') (Some c') priority.
Proof.
  intros Ha Hc. induction priority as [|part rest IH]; [done|].
  destruct (decide (part = "")) as [->|Hpart]; [done|].
  by rewrite !lessLoop_key, Ha, Hc, IH.
Qed.

Lemma lessLoop_total a c priority :
  Forall (fun k => k ≠ "") priority →
  ∃ r, lessLoop (Some a) (Some c) priority = Ok r.
Proof.
  induction 1 as [|k rest Hk _ IH]; [by eexists|].
  rewrite lessLoop_key by done. repeat case_match; eauto.
Qed.

(** A key the score map lacks reads as 0, as if 0 were stored. *)
Lemma scorePart_absent a k :
  readMap (MatchParts a) k = None → scorePart a k = 0.
Proof. unfold scorePart. by intros ->. Qed.

Lemma scorePart_withScore_absent a k k' :
  readMap (MatchParts a) k = None →
  scorePart (withScore a k 0) k' = scorePart a k'.
Proof.
  intros Habs. unfold scorePart at 1. simpl.
  destruct (decide (k = k')) as [<-|Hne].
  - by rewrite lookup_insert_eq, scorePart_absent.
  - rewrite lookup_insert_ne by done. unfold scorePart.
    by destruct (MatchParts a).
Qed.

Lemma Less_lessLoop h b i j p q :
  files b !! i = Some p → files b !! j = Some q →
  Less h b i j = lessLoop (h !! p) (h !! q) (Priority b).
Proof. unfold Less. by intros -> ->. Qed.

(** C6 (as the code has it). [ByPriority.Less] on the files [a] and
    [c] at the indices [i] and [j] walks the priority keys in order, and
    the keys it walks must not be the empty string. The first key on
    which the scores differ, when the keys before it are non-empty and
    tied and it is non-empty itself, decides: the result is whether the
    score of [a] is below that of [c], negated when the key carries the
    marker [^], which is stripped from the name and concerns that key
    alone. When every key is non-empty and the files tie on every key
    the result is false. A key that the score map of a file lacks reads
    as 0, so storing an explicit 0 under it changes no comparison. On
    the two files of the documentation, with the priority Year,
    MonthName, Day, ^Seq and the sequence numbers 11 and 2, the result
    is true. *)
Theorem Less_semantics (h : gmap nat Logfile) b i j p q a c :
  files b !! i = Some p → files b !! j = Some q →
  h !! p = Some a → h !! q = Some c →
  (∀ pre part post,
     Priority b = pre ++ part :: post →
     Forall (fun k => k ≠ "" ∧ tied a c k) pre →
     part ≠ "" → ¬ tied a c part →
     Less h b i j
       = Ok (xorb (descending part)
               (scorePart a (keyName part) <? scorePart c (keyName part)))) ∧
  (Forall (fun k => k ≠ "" ∧ tied a c k) (Priority b) →
     Less h b i j = Ok false) ∧
  (∀ k, readMap (MatchParts a) k = None →
     scorePart a k = 0 ∧
     Less (<[p := withScore a k 0]> h) b i j = Less h b i j) ∧
  (MatchParts fileA
     = Some {[ "Year" := 2013; "MonthName" := 8; "Day" := 8; "Seq" := 11 ]} ∧
   MatchParts fileB
     = Some {[ "Year" := 2013; "MonthName" := 8; "Day" := 8; "Seq" := 2 ]} ∧
   Less docHeap docByPriority 0 1 = Ok true).
Proof.
  intros Hi Hj Ha Hc.
  rewrite (Less_lessLoop h b i j p q), Ha, Hc by done.
  split_and!.
  - intros pre part post -> Hpre Hpart Hdiff. by apply lessLoop_decided.
  - apply lessLoop_all_tied.
  - intros k Habs. split; [by apply scorePart_absent|].
    rewrite (Less_lessLoop _ b i j p q), lookup_insert_eq by done.
    destruct (decide (p = q)) as [<-|Hpq].
    + rewrite lookup_insert_eq. simplify_eq.
      apply lessLoop_ext; intros k'; by apply scorePart_withScore_absent.
    + rewrite lookup_insert_ne, Hc by done.
      apply lessLoop_ext; [|done].
      intros k'. by apply scorePart_withScore_absent.
  - by vm_compute.
  - by vm_compute.
  - by vm_compute.
Qed.

(** C9 (as the code has it). [ByPriority.Less] slices [part[:1]] off
    every key it reaches. When no key is the empty string, [Less]
    returns for every pair of files. An empty key makes [Less] panic
    for the pairs that reach it, those tied on every key before it
    (every pair, when it is the first key); a pair that an earlier key
    decides returns before the empty key is looked at. *)
Theorem Less_panics_at_reached_empty_key (h : gmap nat Logfile)
    b i j p q a c :
  files b !! i = Some p → files b !! j = Some q →
  h !! p = Some a → h !! q = Some c →
  (Forall (fun k => k ≠ "") (Priority b) → ∃ r, Less h b i j = Ok r) ∧
  (∀ pre post,
     Priority b = pre ++ "" :: post →
     Forall (fun k => k ≠ "" ∧ tied a c k) pre →
     Less h b i j = Panicked) ∧
  (∀ post, Priority b = "" :: post → Less h b i j = Panicked) ∧
  (∀ pre part post,
     Priority b = pre ++ part :: post →
     Forall (fun k => k ≠ "" ∧ tied a c k) pre →
     part ≠ "" → ¬ tied a c part →
     ∃ r, Less h b i j = Ok r).
Proof.
  intros Hi Hj Ha Hc.
  rewrite (Less_lessLoop h b i j p q), Ha, Hc by done.
  split_and!.
  - apply lessLoop_total.
  - intros pre post -> Hpre. by rewrite lessLoop_tied_prefix.
  - by intros post ->.
  - intros pre part post -> Hpre Hpart Hdiff.
    rewrite lessLoop_decided by done. by eexists.
Qed.

End Comparator.

(** C6, witness: the two files of the documentation tie on Year,
    MonthName and Day, and ^Seq decides. *)
Lemma Less_semantics_witness :
  Less docHeap docByPriority 0 1
    = Ok (xorb (descending "^Seq")
            (scorePart fileA (keyName "^Seq")
               <? scorePart fileB (keyName "^Seq"))).
Proof.
  refine (proj1 (Less_semantics docHeap docByPriority 0 1 0%nat 1%nat
                   fileA fileB eq_refl eq_refl eq_refl eq_refl)
            ["Year"; "MonthName"; "Day"] "^Seq" [] eq_refl _ _ _).
  - repeat constructor; by vm_compute.
  - done.
  - by vm_compute.
Defined.

(** C6, counterexample: with the empty string as the only key the two
    files of the documentation tie on every key (a missing score reads
    as 0 on both sides), and with the keys [""] and [^Seq] the first key
    on which their scores differ is [^Seq] (11 against 2); in both cases
    [Less] panics at the empty key, where the result should be false and
    true. *)
Lemma Less_panics_on_an_empty_key :
  Forall (tied fileA fileB) (Priority onlyEmptyKey) ∧
  Less docHeap onlyEmptyKey 0 1 = Panicked ∧
  tied fileA fileB "" ∧
  scorePart fileA (keyName "^Seq") = 11 ∧
  scorePart fileB (keyName "^Seq") = 2 ∧
  Less docHeap emptyKeyThenSeq 0 1 = Panicked.
Proof. split_and!; [repeat constructor|..]; by vm_compute. Qed.

(** C9, witness: with the empty string as the only key the comparison of
    the two files of the documentation panics. *)
Lemma Less_panics_at_reached_empty_key_witness :
  Less docHeap {| files := [0%nat; 1%nat]; Priority := [""] |} 0 1
    = Panicked.
Proof.
  exact (proj1 (proj2 (Less_panics_at_reached_empty_key docHeap
                  {| files := [0%nat; 1%nat]; Priority := [""] |}
                  0 1 0%nat 1%nat fileA fileB
                  eq_refl eq_refl eq_refl eq_refl))
           [] [] eq_refl (List.Forall_nil _)).
Defined.

(** C9, counterexample: the priority holds an empty key, after Year; the
    files of the years 1 and 2 differ on Year, and [Less] returns true
    for them instead of panicking. *)
Lemma Less_returns_despite_empty_key :
  "" ∈ Priority yearThenEmpty ∧
  Less yearHeap yearThenEmpty 0 1 = Ok true ∧
  Less yearHeap yearThenEmpty 1 0 = Ok false.
Proof. split_and!; [set_solver|by vm_compute..]. Qed.

(** ** Stream differentiation *)

Section Streams.
Implicit Types (h : gmap nat Logfile) (l : Logfile).
Implicit Types (diff : list string) (fs : list nat).
Implicit Types (mfs : gmap string (list nat)).

Lemma append_nil_r (s : string) : s +:+ "" = s.
Proof.
  induction s as [|c s IH]; [done|].
  change (String c (s +:+ "") = String c s). by rewrite IH.
Qed.

Lemma append_assoc (s1 s2 s3 : string) :
  (s1 +:+ s2) +:+ s3 = s1 +:+ (s2 +:+ s3).
Proof.
  induction s1 as [|c s1 IH]; [done|].
  change (String c ((s1 +:+ s2) +:+ s3) = String c (s1 +:+ (s2 +:+ s3))).
  by rewrite IH.
Qed.

Lemma identifier_cons l d diff :
  identifier l (d :: diff) = tokenText l d +:+ identifier l diff.
Proof. done. Qed.

(** The loop appends the text of each token to the name, in order. *)
Lemma resolveLoop_identifier l diff name :
  resolveLoop (Some l) diff name = Ok (name +:+ identifier l diff).
Proof.
  revert name. induction diff as [|d rest IH]; intros name.
  { simpl. by rewrite append_nil_r. }
  rewrite identifier_cons, <- append_assoc. simpl.
  unfold tokenText.
  destruct (readMap (StringMatchParts l) d) as [value|]; simpl;
    by rewrite IH.
Qed.

Lemma ResolveDifferentiatedName_identifier l diff :
  ResolveDifferentiatedName (Some l) diff = Ok (identifier l diff).
Proof. apply resolveLoop_identifier. Qed.

(** A differentiator whose tokens name no capture of the file resolves
    to the tokens themselves. *)
Lemma identifier_literal l diff :
  (∀ d, d ∈ diff → readMap (StringMatchParts l) d = None) →
  identifier l diff = concatAll diff.
Proof.
  induction diff as [|d rest IH]; intros Hlit; [done|].
  rewrite identifier_cons, IH by (intros d' Hd'; apply Hlit; set_solver).
  unfold tokenText. by rewrite Hlit by set_solver.
Qed.

(** The groups the loop leaves: every file is appended, in input
    order, to the group of its identifier. *)
Lemma filterLoop_groups h diff fs mfs :
  (∀ p, p ∈ fs → is_Some (h !! p)) →
  ∃ m, filterLoop h diff fs mfs = Ok m ∧
    ∀ k, m !! k =
      match mfs !! k, filter (fun p => identOf h diff p = k) fs with
      | None, [] => None
      | g0, g => Some (default [] g0 ++ g)
      end.
Proof.
  revert mfs. induction fs as [|p rest IH]; intros mfs Hvalid.
  { exists mfs. split; [done|]. intros k. rewrite filter_nil.
    destruct (mfs !! k); simpl; by rewrite ?app_nil_r. }
  destruct (Hvalid p) as [l Hl]; [set_solver|].
  simpl. rewrite Hl, ResolveDifferentiatedName_identifier.
  set (name := identifier l diff).
  set (mfs1 := match mfs !! name with
               | Some _ => mfs
               | None => <[name := []]> mfs
               end).
  assert (default [] (mfs1 !! name) = default [] (mfs !! name)) as Hname.
  { unfold mfs1. destruct (mfs !! name) eqn:Hm; [by rewrite Hm|].
    by rewrite lookup_insert_eq. }
  assert (∀ k, k ≠ name → mfs1 !! k = mfs !! k) as Hother.
  { intros k Hk. unfold mfs1. destruct (mfs !! name); [done|].
    by rewrite lookup_insert_ne. }
  destruct (IH (<[name := default [] (mfs1 !! name) ++ [p]]> mfs1))
    as (m & Hrun & Hm); [set_solver|].
  exists m. split; [done|]. intros k. rewrite Hm.
  assert (identOf h diff p = name) as Hp by (unfold identOf; by rewrite Hl).
  destruct (decide (k = name)) as [->|Hk].
  - rewrite lookup_insert_eq, Hname, filter_cons_True by done. simpl.
    rewrite <- app_assoc. simpl.
    by destruct (mfs !! name).
  - rewrite lookup_insert_ne, Hother, filter_cons_False by congruence.
    done.
Qed.

(** C7. The stream identifier [ResolveDifferentiatedName] gives a file
    is the concatenation, over the differentiator tokens in order, of
    the raw value the file holds for the token when it holds one, and
    of the token itself otherwise. [FilterMultipleStreamFiles] maps
    every identifier that occurs to the files that have it, in input
    order: two files are in one group exactly when their identifiers
    are equal strings, and for a non-empty input and a differentiator
    whose tokens name no capture the result is the single group of all
    the input files. The pointers in [fs] are not nil. *)
Theorem grouping_by_identifier h fs diff :
  (∀ p, p ∈ fs → is_Some (h !! p)) →
  (∀ p l, h !! p = Some l →
     ResolveDifferentiatedName (h !! p) diff
       = Ok (concatAll (tokenText l <$> diff)) ∧
     ∀ d, tokenText l d =
            match readMap (StringMatchParts l) d with
            | Some value => value
            | None => d
            end) ∧
  ∃ m, FilterMultipleStreamFiles h fs diff = Ok m ∧
    (∀ k, m !! k =
       match filter (fun p => identOf h diff p = k) fs with
       | [] => None
       | g => Some g
       end) ∧
    (∀ p q, p ∈ fs → q ∈ fs →
       (∃ k g, m !! k = Some g ∧ p ∈ g ∧ q ∈ g)
       ↔ identOf h diff p = identOf h diff q) ∧
    (fs ≠ [] →
     (∀ p l d, p ∈ fs → h !! p = Some l → d ∈ diff →
        readMap (StringMatchParts l) d = None) →
     m = {[ concatAll diff := fs ]}).
Proof.
  intros Hvalid. split.
  { intros p l ->. split; [apply ResolveDifferentiatedName_identifier|].
    intros d. unfold tokenText.
    by destruct (readMap (StringMatchParts l) d). }
  destruct (filterLoop_groups h diff fs ∅ Hvalid) as (m & Hrun & Hm).
  exists m. split; [done|].
  assert (∀ k, m !! k =
            match filter (fun p => identOf h diff p = k) fs with
            | [] => None
            | g => Some g
            end) as Hgroups.
  { intros k. rewrite Hm, lookup_empty. by destruct (filter _ fs). }
  split_and!; [done| |].
  - intros p q Hp Hq. split.
    + intros (k & g & Hk & Hpg & Hqg). rewrite Hgroups in Hk.
      destruct (filter _ fs) as [|x g'] eqn:Hf; [done|].
      simplify_eq. rewrite <- Hf in Hpg, Hqg.
      apply list_elem_of_filter in Hpg as [-> _].
      by apply list_elem_of_filter in Hqg as [-> _].
    + intros Hident.
      assert (p ∈ filter (fun r => identOf h diff r = identOf h diff p) fs)
        as Hpg by by apply list_elem_of_filter.
      assert (q ∈ filter (fun r => identOf h diff r = identOf h diff p) fs)
        as Hqg by by apply list_elem_of_filter.
      exists (identOf h diff p), (filter
        (fun r => identOf h diff r = identOf h diff p) fs).
      split_and!; [|done|done].
      rewrite Hgroups.
      destruct (filter _ fs); [by apply elem_of_nil in Hpg|done].
  - intros Hne Hlit.
    assert (∀ p, p ∈ fs → identOf h diff p = concatAll diff) as Hident.
    { intros p Hp. destruct (Hvalid p Hp) as [l Hl].
      unfold identOf. rewrite Hl. apply identifier_literal. eauto. }
    apply map_eq. intros k. rewrite Hgroups.
    destruct (decide (k = concatAll diff)) as [->|Hk].
    + rewrite lookup_singleton_eq.
      assert (filter (fun p => identOf h diff p = concatAll diff) fs = fs)
        as ->; [|by destruct fs].
      clear Hne Hgroups Hm Hrun. induction fs as [|p rest IH]; [done|].
      rewrite filter_cons_True by (apply Hident; set_solver).
      f_equal. apply IH; set_solver.
    + rewrite lookup_singleton_ne by done.
      assert (filter (fun p => identOf h diff p = k) fs = []) as ->;
        [|done].
      clear Hne Hgroups Hm Hrun. induction fs as [|p rest IH]; [done|].
      rewrite filter_cons_False.
      * apply IH; set_solver.
      * rewrite Hident by set_solver. congruence.
Qed.

End Streams.

(** C7, witness: grouped by their capture [Host], the files [a-1.log],
    [a-2.log] and [b-1.log] fall into the two streams [a] and [b]. *)
Lemma grouping_by_identifier_witness :
  ∃ m, FilterMultipleStreamFiles hostHeap [0; 1; 2]%nat ["Host"] = Ok m ∧
    m !! "a" = Some [0; 1]%nat ∧ m !! "b" = Some [2%nat] ∧
    m = {[ "a" := [0; 1]%nat; "b" := [2%nat] ]}.
Proof.
  destruct (grouping_by_identifier hostHeap [0; 1; 2]%nat ["Host"])
    as [_ (m & Hrun & _)].
  - intros p Hp.
    repeat (apply elem_of_cons in Hp as [->|Hp];
            [by apply (bool_decide_unpack _)|]).
    by apply elem_of_nil in Hp.
  - exists m. split; [exact Hrun|].
    vm_compute in Hrun. injection Hrun as <-. by vm_compute.
Defined.

(** ** A collection: [Logfiles.PopulateMatchParts] *)

Section ParseCollection.
Context `{GoPlatform}.
Implicit Types (re : Regexp) (tr : gmap string (gmap string Z)).
Implicit Types (h : gmap nat Logfile) (fs : list nat) (l : Logfile).

Lemma parseOf_FileName re tr l : FileName (parseOf re tr l).1 = FileName l.
Proof. apply Logfile_PopulateMatchParts_FileName. Qed.

Lemma parseOf_idemp re tr l :
  parseOf re tr (parseOf re tr l).1 = parseOf re tr l.
Proof.
  unfold parseOf at 1. rewrite parseOf_FileName.
  apply Logfile_PopulateMatchParts_idemp.
Qed.

(** A name the pattern matches has a submatch for every slot. *)
Lemma submatch_in_bounds re s i :
  RegexpLaws re → MatchString re s = true →
  (i < length (SubexpNames re))%nat →
  is_Some (FindStringSubmatch re s !! i).
Proof.
  intros Hre Hs Hi. apply lookup_lt_is_Some.
  by rewrite (submatch_of_match re Hre s Hs).
Qed.

Lemma parseOf_no_panic re tr l :
  RegexpLaws re → MatchString re (FileName l) = true →
  (parseOf re tr l).2 ≠ Panic.
Proof.
  intros Hre Hmatch. unfold parseOf, Logfile_PopulateMatchParts.
  pose proof (populateLoop_in_bounds
    (FindStringSubmatch re (FileName l)) tr (SubexpNames re) 0
    (default ∅ (StringMatchParts l)) (default ∅ (MatchParts l))) as Hb.
  destruct (populateLoop _ _ _ _ _ _) as [[raw sc] out]. simpl in *.
  apply Hb. by rewrite (submatch_of_match re Hre _ Hmatch).
Qed.

(** A name the pattern does not match makes the parse panic at slot 0. *)
Lemma parseOf_panic re tr l :
  RegexpLaws re → MatchString re (FileName l) = false →
  (parseOf re tr l).2 = Panic.
Proof.
  intros Hre Hmatch. unfold parseOf, Logfile_PopulateMatchParts.
  rewrite (submatch_of_no_match re Hre _ Hmatch).
  destruct (names_whole_match re Hre) as [rest ->].
  by rewrite populateLoop_out_of_bounds.
Qed.

Lemma parseErrors_cons re tr h p fs l :
  h !! p = Some l →
  parseErrors re tr h (p :: fs)
    = match (parseOf re tr l).2 with
      | Return (Some e) => [e]
      | _ => []
      end ++ parseErrors re tr h fs.
Proof.
  intros Hl. unfold parseErrors, parseError. simpl. rewrite Hl. simpl.
  by destruct (parseOf re tr l).2 as [[e|]|].
Qed.

Lemma parseErrors_length re tr h fs :
  length (parseErrors re tr h fs) = length (failing re tr h fs).
Proof.
  unfold parseErrors, failing.
  induction fs as [|p rest IH]; [done|].
  rewrite filter_cons. simpl.
  destruct (parseError re tr h p) as [e|] eqn:He.
  - rewrite decide_True by done. simpl. f_equal. exact IH.
  - rewrite decide_False by (by intros [? ?]). exact IH.
Qed.

(** The loop over the collection, started on a store [h] in which some
    files of [h0] may have been parsed already. *)
Lemma populateAll_spec re tr h0 fs :
  RegexpLaws re →
  ∀ h errs0,
  (∀ p, p ∈ fs →
     ∃ l, h0 !! p = Some l ∧ MatchString re (FileName l) = true) →
  parsedOrNot re tr h0 h →
  ∃ h',
    populateAll re tr (SubexpNames re) fs h errs0
      = (h', Return (if IsError (errs0 ++ parseErrors re tr h0 fs)
                     then Some (errs0 ++ parseErrors re tr h0 fs)
                     else None)) ∧
    (∀ p l, p ∈ fs → h0 !! p = Some l →
       h' !! p = Some (parseOf re tr l).1) ∧
    (∀ p, p ∉ fs → h' !! p = h !! p).
Proof.
  intros Hre. induction fs as [|p rest IH]; intros h errs0 Hvalid Hinv.
  { exists h. simpl. rewrite app_nil_r. split_and!; [done| |done].
    intros p l Hp. by apply elem_of_nil in Hp. }
  destruct (Hvalid p) as (l0 & Hl0 & Hmatch); [set_solver|].
  assert (∃ lcur, h !! p = Some lcur ∧
                  parseOf re tr lcur = parseOf re tr l0)
    as (lcur & Hcur & Hparse).
  { destruct (Hinv p) as [Heq|(l & Hl & Hh)].
    - exists l0. by rewrite Heq.
    - simplify_eq. eexists. split; [done|]. apply parseOf_idemp. }
  pose proof (parseOf_no_panic re tr l0 Hre Hmatch) as Hnopanic.
  pose proof (parseErrors_cons re tr h0 p rest l0 Hl0) as Herrs.
  simpl. rewrite Hcur.
  change (Logfile_PopulateMatchParts (SubexpNames re)
            (FindStringSubmatch re (FileName lcur)) tr lcur)
    with (parseOf re tr lcur).
  rewrite Hparse.
  assert (parsedOrNot re tr h0 (<[p := (parseOf re tr l0).1]> h)) as Hinv'.
  { intros q. destruct (decide (q = p)) as [->|Hq].
    - right. exists l0. by rewrite lookup_insert_eq.
    - rewrite lookup_insert_ne by done. apply Hinv. }
  destruct (parseOf re tr l0) as [l' out] eqn:Hparse0. simpl in *.
  assert (∀ errs1, ∃ h',
    populateAll re tr (SubexpNames re) rest (<[p := l']> h) errs1
      = (h', Return (if IsError (errs1 ++ parseErrors re tr h0 rest)
                     then Some (errs1 ++ parseErrors re tr h0 rest)
                     else None)) ∧
    (∀ q l, q ∈ p :: rest → h0 !! q = Some l →
       h' !! q = Some (parseOf re tr l).1) ∧
    (∀ q, q ∉ p :: rest → h' !! q = h !! q)) as Hrest.
  { intros errs1.
    destruct (IH (<[p := l']> h) errs1) as (h' & Hrun & Hin & Hout);
      [set_solver|done|].
    exists h'. split_and!; [done| |].
    - intros q l Hq Hl. destruct (decide (q ∈ rest)) as [Hqr|Hqr].
      + by apply Hin.
      + apply elem_of_cons in Hq as [->|Hq]; [|done]. simplify_eq.
        by rewrite Hparse0, Hout, lookup_insert_eq.
    - intros q Hq. apply not_elem_of_cons in Hq as [Hqp Hqr].
      by rewrite Hout, lookup_insert_ne. }
  destruct out as [[e|]|]; [| |done].
  - destruct (Hrest (AddMessage errs0 e)) as (h' & Hrun & Hin & Hout).
    exists h'. split_and!; [|done|done].
    rewrite Hrun, Herrs. unfold AddMessage. by rewrite <- !app_assoc.
  - destruct (Hrest errs0) as (h' & Hrun & Hin & Hout).
    exists h'. split_and!; [|done|done].
    by rewrite Hrun, Herrs.
Qed.

(** A file whose name the pattern does not match makes the loop
    panic, at that file or before. *)
Lemma populateAll_panics re tr fs :
  RegexpLaws re →
  ∀ h errs0 p l,
  p ∈ fs → h !! p = Some l → MatchString re (FileName l) = false →
  (populateAll re tr (SubexpNames re) fs h errs0).2 = Panic.
Proof.
  intros Hre. induction fs as [|q rest IH]; intros h errs0 p l Hp Hl Hno.
  { by apply elem_of_nil in Hp. }
  simpl. destruct (h !! q) as [lq|] eqn:Hq; [|done].
  change (Logfile_PopulateMatchParts (SubexpNames re)
            (FindStringSubmatch re (FileName lq)) tr lq)
    with (parseOf re tr lq).
  destruct (decide (p = q)) as [->|Hpq].
  - simplify_eq. pose proof (parseOf_panic re tr l Hre Hno) as Hpanic.
    destruct (parseOf re tr l) as [l' out]. simpl in Hpanic. by subst.
  - apply elem_of_cons in Hp as [?|Hp]; [done|].
    destruct (parseOf re tr lq) as [lq' [[e|]|]]; [| |done];
      (eapply IH; [exact Hp| |exact Hno]); by rewrite lookup_insert_ne.
Qed.

(** The scan adds files whose paths the pattern matches, and leaves the
    files that were there. *)
Lemma scanWalk_matches re walk :
  ∀ h found h' found',
  scanWalk re walk h found = (h', found') →
  (∀ p, p ∈ found →
     ∃ l, h !! p = Some l ∧ MatchString re (FileName l) = true) →
  ∀ p, p ∈ found' →
    ∃ l, h' !! p = Some l ∧ MatchString re (FileName l) = true.
Proof.
  induction walk as [|e rest IH]; intros h found h' found' Hscan Hfound.
  { by simplify_eq/=. }
  simpl in Hscan.
  destruct (walkErr e || isDir e); [by eapply IH|].
  destruct (MatchString re (path e)) eqn:Hmatch; [|by eapply IH].
  eapply IH; [exact Hscan|].
  assert (h !! fresh (dom h) = None) as Hfresh.
  { apply not_elem_of_dom, is_fresh. }
  intros p [Hp|Hp%list_elem_of_singleton]%elem_of_app.
  - destruct (Hfound p Hp) as (l & Hl & Hm).
    exists l. split; [|done].
    rewrite lookup_insert_ne; [done|]. congruence.
  - subst p. exists (newLogfile (path e)).
    by rewrite lookup_insert_eq.
Qed.

(** C8. [Logfiles.PopulateMatchParts] attempts every file of the
    collection, whatever happened at the files before it. It returns
    one message for each file that fails to parse, in the order of the
    collection (N messages for N failing files), as a [MultipleError]
    whose text joins them with [" :: "], and returns nil when no file
    fails. Afterwards every file of the collection is as its own parse
    leaves it; a file that parsed without error holds, for each capture
    name, the raw value of the last slot of that name and, for a named
    capture, its resolved score. Files outside the collection are
    untouched. Every pointer of the collection is non-nil and leads to
    a file whose name the pattern matches. *)
Theorem errors_are_aggregated re tr h fs :
  RegexpLaws re →
  (∀ p, p ∈ fs →
     ∃ l, h !! p = Some l ∧ MatchString re (FileName l) = true) →
  ∃ h',
    Logfiles_PopulateMatchParts re tr fs h
      = (h', Return (match parseErrors re tr h fs with
                     | [] => None
                     | errs => Some errs
                     end)) ∧
    length (parseErrors re tr h fs) = length (failing re tr h fs) ∧
    MultipleError_Error (parseErrors re tr h fs)
      = GoStrings.Join (parseErrors re tr h fs) " :: " ∧
    (∀ p l, p ∈ fs → h !! p = Some l →
       h' !! p = Some (parseOf re tr l).1) ∧
    (∀ p l l', p ∈ fs → h !! p = Some l →
       parseOf re tr l = (l', Return None) →
       ∀ k n v,
         SubexpNames re !! k = Some n →
         FindStringSubmatch re (FileName l) !! k = Some v →
         n ∉ drop (S k) (SubexpNames re) →
         readMap (StringMatchParts l') n = Some v ∧
         (n ≠ "" → ∃ s, resolveScore tr n v = Some s ∧
                        readMap (MatchParts l') n = Some s)) ∧
    (∀ p, p ∉ fs → h' !! p = h !! p).
Proof.
  intros Hre Hvalid.
  destruct (populateAll_spec re tr h fs Hre h NewMultipleError Hvalid)
    as (h' & Hrun & Hin & Hout); [by left|].
  exists h'. split_and!; [|apply parseErrors_length|done|done| |done].
  - unfold Logfiles_PopulateMatchParts. rewrite Hrun. simpl.
    by destruct (parseErrors re tr h fs).
  - intros p l l' Hp Hl Hparse k n v Hk Hv Hlast.
    apply Logfile_PopulateMatchParts_inv in Hparse
      as (raw & sc & Hloop & ->).
    destruct (populateLoop_success _ _ _ _ _ _ _ _ k n v Hloop Hk Hv Hlast)
      as [Hraw Hscore].
    split; [done|]. intros Hn. destruct (Hscore Hn) as (s & Hs & Hsc).
    exists s. split; [|done].
    by rewrite <- slotScore_resolveScore, Hs.
Qed.

(** C10. [Logfiles.PopulateMatchParts] hands the submatches of each
    file name to [Logfile.PopulateMatchParts], which indexes them at
    every slot of [SubexpNames]. When every file name of the collection
    matches the pattern, each of these indices is in bounds and the
    call does not panic; this is so for the files
    [ScanDirectoryForLogfiles] finds with the same pattern. A file of
    the collection whose name does not match has the empty list of
    submatches, and the call panics. *)
Theorem parse_needs_matching_names re tr h fs :
  RegexpLaws re →
  ((∀ p, p ∈ fs →
      ∃ l, h !! p = Some l ∧ MatchString re (FileName l) = true) →
   (∀ p l i, p ∈ fs → h !! p = Some l →
      (i < length (SubexpNames re))%nat →
      is_Some (FindStringSubmatch re (FileName l) !! i)) ∧
   (Logfiles_PopulateMatchParts re tr fs h).2 ≠ Panic) ∧
  (∀ walk h0,
     (∀ p, p ∈ (ScanDirectoryForLogfiles walk re h0).2 →
        ∃ l, (ScanDirectoryForLogfiles walk re h0).1 !! p = Some l ∧
             MatchString re (FileName l) = true) ∧
     (Logfiles_PopulateMatchParts re tr
        (ScanDirectoryForLogfiles walk re h0).2
        (ScanDirectoryForLogfiles walk re h0).1).2 ≠ Panic) ∧
  (∀ p l, p ∈ fs → h !! p = Some l →
     MatchString re (FileName l) = false →
     FindStringSubmatch re (FileName l) = [] ∧
     (Logfiles_PopulateMatchParts re tr fs h).2 = Panic).
Proof.
  intros Hre.
  assert (∀ h1 fs1,
    (∀ p, p ∈ fs1 →
       ∃ l, h1 !! p = Some l ∧ MatchString re (FileName l) = true) →
    (Logfiles_PopulateMatchParts re tr fs1 h1).2 ≠ Panic) as Hsafe.
  { intros h1 fs1 Hvalid.
    destruct (populateAll_spec re tr h1 fs1 Hre h1 NewMultipleError Hvalid)
      as (h' & Hrun & _); [by left|].
    unfold Logfiles_PopulateMatchParts. by rewrite Hrun. }
  split_and!.
  - intros Hvalid. split; [|by apply Hsafe].
    intros p l i Hp Hl Hi.
    destruct (Hvalid p Hp) as (l1 & Hl1 & Hmatch). simplify_eq.
    by apply submatch_in_bounds.
  - intros walk h0.
    assert (∀ p, p ∈ (ScanDirectoryForLogfiles walk re h0).2 →
              ∃ l, (ScanDirectoryForLogfiles walk re h0).1 !! p = Some l ∧
                   MatchString re (FileName l) = true) as Hscan.
    { unfold ScanDirectoryForLogfiles.
      destruct (scanWalk re walk h0 []) as [h1 found] eqn:Hwalk.
      eapply scanWalk_matches; [exact Hwalk|].
      intros p Hp. by apply elem_of_nil in Hp. }
    split; [done|by apply Hsafe].
  - intros p l Hp Hl Hno.
    split; [by apply (submatch_of_no_match re Hre)|].
    by eapply populateAll_panics.
Qed.

End ParseCollection.

Lemma monthSeq_laws : RegexpLaws monthSeq.
Proof.
  split.
  - by eexists.
  - intros s. unfold monthSeq, tableRegexp. simpl.
    by repeat case_decide.
  - intros s. unfold monthSeq, tableRegexp. simpl.
    by repeat case_decide.
Qed.

Lemma monthSeqScan_matches p :
  p ∈ monthSeqScan.2 →
  ∃ l, monthSeqScan.1 !! p = Some l ∧
       MatchString monthSeq (FileName l) = true.
Proof.
  unfold monthSeqScan, ScanDirectoryForLogfiles.
  destruct (scanWalk monthSeq monthSeqWalk ∅ []) as [h found] eqn:Hwalk.
  revert p. eapply scanWalk_matches; [exact Hwalk|].
  intros p Hp. by apply elem_of_nil in Hp.
Qed.

(** C8, witness: of the four files the scan finds, [Foo-2] and [Bar-4]
    fail to parse; the call returns their two messages, and [Sep-3],
    which comes after the first failure, holds its scores. *)
Lemma errors_are_aggregated_witness :
  ∃ h',
    Logfiles_PopulateMatchParts (H := amd64) monthSeq ∅
      monthSeqScan.2 monthSeqScan.1
    = (h', Return (Some ["Unable to locate month name: Foo";
                         "Unable to locate month name: Bar"])) ∧
    MultipleError_Error ["Unable to locate month name: Foo";
                         "Unable to locate month name: Bar"]
    = "Unable to locate month name: Foo :: Unable to locate month name: Bar" ∧
    (MatchParts <$> h' !! 2%nat)
    = Some (Some {[ "MonthName" := 9; "Seq" := 3 ]}).
Proof.
  destruct (errors_are_aggregated (H := amd64) monthSeq ∅
              monthSeqScan.1 monthSeqScan.2 monthSeq_laws
              monthSeqScan_matches)
    as (h' & Hrun & _ & _ & Hin & _).
  exists h'. split_and!.
  - rewrite Hrun. by vm_compute.
  - by vm_compute.
  - rewrite (Hin 2%nat (newLogfile "Sep-3")).
    + by vm_compute.
    + apply (bool_decide_unpack _). by vm_compute.
    + by vm_compute.
Defined.

(** C10, witness: the collection holds [README], which the pattern does
    not match; its list of submatches is empty and the call panics. *)
Lemma parse_needs_matching_names_witness :
  FindStringSubmatch monthSeq "README" = [] ∧
  (Logfiles_PopulateMatchParts (H := amd64) monthSeq ∅ [0; 1]%nat
     readmeHeap).2 = Panic.
Proof.
  refine (proj2 (proj2 (parse_needs_matching_names (H := amd64) monthSeq ∅
                          readmeHeap [0; 1]%nat monthSeq_laws))
            1%nat (newLogfile "README") _ _ _).
  - set_solver.
  - by vm_compute.
  - by vm_compute.
Defined.

(** * Further properties of the package *)

#[local] Set Warnings "-clear-no-such-hyp".

Section ParseFrame.
Context `{GoPlatform}.
Implicit Types (ms names : list string) (tr : gmap string (gmap string Z)).
Implicit Types (raw : gmap string string) (sc : gmap string Z).

(** The loop never writes a score under the empty name. *)
Lemma populateLoop_unnamed_score ms tr names i raw sc raw' sc' out :
  populateLoop ms tr i names raw sc = (raw', sc', out) →
  sc' !! "" = sc !! "".
Proof.
  revert i raw sc.
  induction names as [|m ns IH]; intros i raw sc Hrun; simpl in Hrun.
  { by simplify_eq. }
  destruct (ms !! i) as [v|]; [|by simplify_eq].
  case_decide as Hm; [by eapply IH|].
  destruct (slotScore tr m v) as [e|s]; [by simplify_eq|].
  apply IH in Hrun. by rewrite Hrun, lookup_insert_ne.
Qed.

(** X1. Whatever way [Logfile.PopulateMatchParts] ends (nil, an error or
    a panic), it leaves the file name as it was and both maps allocated;
    it stores no score under the empty name; it changes nothing under a
    name that no capture slot carries; and it removes no entry: a name
    that had a raw value or a score before still has one. *)
Theorem PopulateMatchParts_frame names ms tr (l : Logfile) :
  FileName (Logfile_PopulateMatchParts names ms tr l).1 = FileName l ∧
  is_Some (MatchParts (Logfile_PopulateMatchParts names ms tr l).1) ∧
  is_Some (StringMatchParts (Logfile_PopulateMatchParts names ms tr l).1) ∧
  readMap (MatchParts (Logfile_PopulateMatchParts names ms tr l).1) ""
    = readMap (MatchParts l) "" ∧
  (∀ n, n ∉ names →
     readMap (StringMatchParts (Logfile_PopulateMatchParts names ms tr l).1) n
       = readMap (StringMatchParts l) n ∧
     readMap (MatchParts (Logfile_PopulateMatchParts names ms tr l).1) n
       = readMap (MatchParts l) n) ∧
  (∀ n, (is_Some (readMap (StringMatchParts l) n) →
         is_Some (readMap (StringMatchParts
                    (Logfile_PopulateMatchParts names ms tr l).1) n)) ∧
        (is_Some (readMap (MatchParts l) n) →
         is_Some (readMap (MatchParts
                    (Logfile_PopulateMatchParts names ms tr l).1) n))).
Proof.
  destruct (Logfile_PopulateMatchParts names ms tr l) as [l' out] eqn:Hrun.
  apply Logfile_PopulateMatchParts_inv in Hrun as (raw & sc & Hloop & ->).
  simpl. rewrite !readMap_default. split_and!; try done.
  - by eapply populateLoop_unnamed_score.
  - intros n Hn. rewrite !readMap_default.
    by eapply populateLoop_untouched.
  - intros n. rewrite !readMap_default.
    rewrite populateLoop_frame in Hloop.
    destruct (populateLoop ms tr 0 names ∅ ∅) as [[r s] o].
    injection Hloop as <- <- <-.
    split; intros Hsome; apply lookup_union_is_Some; by right.
Qed.

(** X2. [Logfile.PopulateMatchParts] panics exactly when there are fewer
    submatches than capture names and every slot that has a submatch
    resolves without error; with at least as many submatches as names it
    never panics, and an error at a slot that has a submatch is returned
    before the missing one is indexed. *)
Theorem PopulateMatchParts_panics_iff names ms tr (l : Logfile) :
  (Logfile_PopulateMatchParts names ms tr l).2 = Panic ↔
  (length ms < length names)%nat ∧
  (Logfile_PopulateMatchParts (take (length ms) names) ms tr l).2
    = Return None.
Proof.
  unfold Logfile_PopulateMatchParts.
  set (raw0 := default ∅ (StringMatchParts l)).
  set (sc0 := default ∅ (MatchParts l)).
  pose proof (populateLoop_in_bounds ms tr (take (length ms) names) 0
                raw0 sc0) as Hpre.
  rewrite length_take in Hpre.
  rewrite <- (take_drop (length ms) names) at 1.
  rewrite populateLoop_app, length_take.
  destruct (populateLoop ms tr 0 (take (length ms) names) raw0 sc0)
    as [[raw1 sc1] [[e|]|]] eqn:Hloop; simpl in *.
  - split; [done|]. by intros [_ ?].
  - destruct (decide (length ms < length names)%nat) as [Hlt|Hge].
    + destruct (drop (length ms) names) as [|m rest] eqn:Hdrop.
      { apply (f_equal length) in Hdrop. rewrite length_drop in Hdrop.
        simpl in Hdrop. lia. }
      rewrite populateLoop_out_of_bounds by lia. done.
    + rewrite drop_ge by lia. simpl. split; [done|]. intros [? _]. lia.
  - exfalso. apply Hpre; [lia|done].
Qed.

End ParseFrame.

Section CalendarTables.
Context `{GoPlatform}.
Import GoStrings.

Lemma slotScore_scoreOf tr n v s :
  slotScore tr n v = inr s ↔ scoreOf (slotScore tr n v) = Some s.
Proof. destruct (slotScore tr n v); naive_solver. Qed.

Lemma same_elements {A} `{EqDecision A} (l1 l2 : list A) :
  Forall (fun x => x ∈ l2) l1 → Forall (fun x => x ∈ l1) l2 →
  ∀ x, x ∈ l1 ↔ x ∈ l2.
Proof. rewrite !Forall_forall. intros H12 H21 x. split; auto. Qed.

(** The month table holds the lowered English names, with their numbers,
    and nothing else; so does the day table. *)
Lemma MonthLookup_lowered x s :
  MonthLookup !! x = Some s ↔ (x, s) ∈ lowered englishMonths.
Proof.
  rewrite <- elem_of_map_to_list. revert x s.
  assert (∀ p, p ∈ map_to_list MonthLookup ↔ p ∈ lowered englishMonths)
    as Hsame; [|intros x s; apply Hsame].
  apply same_elements; apply (bool_decide_unpack _); by vm_compute.
Qed.

Lemma DayLookup_lowered x s :
  DayLookup !! x = Some s ↔ (x, s) ∈ lowered englishDays.
Proof.
  rewrite <- elem_of_map_to_list. revert x s.
  assert (∀ p, p ∈ map_to_list DayLookup ↔ p ∈ lowered englishDays)
    as Hsame; [|intros x s; apply Hsame].
  apply same_elements; apply (bool_decide_unpack _); by vm_compute.
Qed.

Lemma englishMonths_range x s :
  (x, s) ∈ lowered englishMonths → 1 ≤ s ≤ 12.
Proof.
  assert (Forall (fun p => 1 ≤ p.2 ≤ 12) (lowered englishMonths)) as Hall
    by (apply (bool_decide_unpack _); by vm_compute).
  rewrite Forall_forall in Hall. apply Hall.
Qed.

Lemma englishDays_range x s :
  (x, s) ∈ lowered englishDays → 0 ≤ s ≤ 6.
Proof.
  assert (Forall (fun p => 0 ≤ p.2 ≤ 6) (lowered englishDays)) as Hall
    by (apply (bool_decide_unpack _); by vm_compute).
  rewrite Forall_forall in Hall. apply Hall.
Qed.

(** X3. A [MonthName] slot resolves to a score exactly when its lowered
    value is one of the English month names, full or abbreviated to three
    letters, and the score is then the number of that month, from 1 to
    12; a [DayName] slot likewise with the day names and 0 to 6. Every
    other value is an error, and the custom translation map is not
    consulted. *)
Theorem calendar_scores_exact tr v s :
  (slotScore tr "MonthName" v = inr s
     ↔ (ToLower v, s) ∈ lowered englishMonths) ∧
  (slotScore tr "DayName" v = inr s
     ↔ (ToLower v, s) ∈ lowered englishDays) ∧
  (slotScore tr "MonthName" v = inr s → 1 ≤ s ≤ 12) ∧
  (slotScore tr "DayName" v = inr s → 0 ≤ s ≤ 6).
Proof.
  rewrite !slotScore_scoreOf, slotScore_MonthName, slotScore_DayName.
  rewrite MonthLookup_lowered, DayLookup_lowered.
  split_and!; try done.
  - apply englishMonths_range.
  - apply englishDays_range.
Qed.

Lemma maxInt_pos : 0 < maxInt.
Proof. unfold maxInt, intSize. by destruct intWidth. Qed.

(** X4. A slot whose name has neither calendar nor custom handling never
    fails: its score is -1 when the value is not a string of decimal
    digits, and a number from 0 to the largest [int] when it is. The
    sentinel -1 is therefore never the score of a string of digits. *)
Theorem unhandled_slot_score tr n v :
  n ≠ "MonthName" → n ≠ "DayName" → tr !! n = None →
  ∃ s, slotScore tr n v = inr s ∧ -1 ≤ s ≤ maxInt ∧
       (s = -1 ↔ isDecimal v = false) ∧
       (isDecimal v = true → s = Z.min (decimalValue v) maxInt).
Proof.
  intros Hmonth Hday Htr.
  pose proof maxInt_pos as Hmax.
  destruct (isDecimal v) eqn:Hd.
  - exists (Z.min (decimalValue v) maxInt).
    pose proof (decimalValue_nonneg v Hd) as Hnonneg.
    split_and!; [|lia|lia| |done].
    + apply slotScore_inr. unfold resolveScore, resolveWith.
      by rewrite calendarTable_other, Htr, Hd.
    + split; [lia|done].
  - exists (-1). split_and!; [|lia|lia|done|done].
    apply slotScore_inr. unfold resolveScore, resolveWith.
    by rewrite calendarTable_other, Htr, Hd.
Qed.

End CalendarTables.

(** X4, witness: a slot [Host] with the value [web7]. *)
Lemma unhandled_slot_score_witness :
  ∃ s, slotScore (H := amd64) ∅ "Host" "web7" = inr s ∧
       -1 ≤ s ≤ maxInt (H := amd64) ∧
       (s = -1 ↔ isDecimal "web7" = false) ∧
       (isDecimal "web7" = true →
        s = Z.min (decimalValue "web7") (maxInt (H := amd64))).
Proof.
  exact (unhandled_slot_score (H := amd64) ∅ "Host" "web7"
           ltac:(done) ltac:(done) eq_refl).
Defined.

(** ** [ByPriority] as a [sort.Interface] *)

Section Ordering.
Implicit Types (a c d : Logfile) (priority : list string).
Implicit Types (h : gmap nat Logfile) (b : ByPriority).

Lemma Less_fileAt h b i j a c :
  fileAt h b i = Some a → fileAt h b j = Some c →
  Less h b i j = lessLoop (Some a) (Some c) (Priority b).
Proof.
  unfold fileAt, Less. intros Ha Hc.
  destruct (files b !! i) as [p|]; [|done].
  destruct (files b !! j) as [q|]; [|done].
  simpl in *. by rewrite Ha, Hc.
Qed.

Lemma lessLoop_irrefl a priority :
  Forall (fun k => k ≠ "") priority →
  lessLoop (Some a) (Some a) priority = Ok false.
Proof.
  intros Hkeys. apply lessLoop_all_tied.
  eapply Forall_impl; [exact Hkeys|]. by intros k Hk.
Qed.

Lemma lessLoop_asym a c priority :
  Forall (fun k => k ≠ "") priority →
  lessLoop (Some a) (Some c) priority = Ok true →
  lessLoop (Some c) (Some a) priority = Ok false.
Proof.
  induction 1 as [|k rest Hk _ IH]; [done|].
  rewrite !lessLoop_key by done.
  destruct (descending k);
    destruct (Z.ltb_spec (scorePart a (keyName k)) (scorePart c (keyName k)));
    destruct (Z.ltb_spec (scorePart c (keyName k)) (scorePart a (keyName k)));
    simpl; try done; lia.
Qed.

Lemma lessLoop_trans a c d priority :
  Forall (fun k => k ≠ "") priority →
  lessLoop (Some a) (Some c) priority = Ok true →
  lessLoop (Some c) (Some d) priority = Ok true →
  lessLoop (Some a) (Some d) priority = Ok true.
Proof.
  induction 1 as [|k rest Hk _ IH]; [done|].
  rewrite !lessLoop_key by done.
  destruct (descending k);
    destruct (Z.ltb_spec (scorePart a (keyName k)) (scorePart c (keyName k)));
    destruct (Z.ltb_spec (scorePart c (keyName k)) (scorePart a (keyName k)));
    destruct (Z.ltb_spec (scorePart c (keyName k)) (scorePart d (keyName k)));
    destruct (Z.ltb_spec (scorePart d (keyName k)) (scorePart c (keyName k)));
    destruct (Z.ltb_spec (scorePart a (keyName k)) (scorePart d (keyName k)));
    destruct (Z.ltb_spec (scorePart d (keyName k)) (scorePart a (keyName k)));
    simpl; try done; lia.
Qed.

(** Neither file sorts before the other exactly when they tie on every
    key. *)
Lemma lessLoop_incomparable a c priority :
  Forall (fun k => k ≠ "") priority →
  lessLoop (Some a) (Some c) priority = Ok false ∧
  lessLoop (Some c) (Some a) priority = Ok false
  ↔ Forall (tied a c) priority.
Proof.
  induction 1 as [|k rest Hk _ IH].
  { split; [by constructor|done]. }
  rewrite Forall_cons, <- IH, !lessLoop_key by done. unfold tied.
  destruct (descending k);
    destruct (Z.ltb_spec (scorePart a (keyName k)) (scorePart c (keyName k)));
    destruct (Z.ltb_spec (scorePart c (keyName k)) (scorePart a (keyName k)));
    simpl; naive_solver lia.
Qed.

(** With a nil pointer on either side the first key panics. *)
Lemma lessLoop_nil first second k rest :
  k ≠ "" → first = None ∨ second = None →
  lessLoop first second (k :: rest) = Panicked.
Proof.
  destruct k as [|ch k]; [done|]. intros _ Hnil.
  cbn [lessLoop GoStrings.slicePrefix1 GoStrings.sliceFrom1].
  case_decide; destruct first, second; naive_solver.
Qed.

(** X5. For priority keys that are not empty, [ByPriority.Less] is the
    strict weak ordering [sort.Sort] asks for: no file sorts before
    itself; when one file sorts before another, the other does not sort
    before it; sorting before is transitive; and being tied (neither
    before the other) is transitive. *)
Theorem Less_strict_weak_order h b i j k a c d :
  fileAt h b i = Some a → fileAt h b j = Some c → fileAt h b k = Some d →
  Forall (fun key => key ≠ "") (Priority b) →
  Less h b i i = Ok false ∧
  (Less h b i j = Ok true → Less h b j i = Ok false) ∧
  (Less h b i j = Ok true → Less h b j k = Ok true →
   Less h b i k = Ok true) ∧
  (Less h b i j = Ok false → Less h b j i = Ok false →
   Less h b j k = Ok false → Less h b k j = Ok false →
   Less h b i k = Ok false ∧ Less h b k i = Ok false).
Proof.
  intros Ha Hc Hd Hkeys.
  rewrite (Less_fileAt h b i i a a), (Less_fileAt h b i j a c),
    (Less_fileAt h b j i c a), (Less_fileAt h b j k c d),
    (Less_fileAt h b k j d c), (Less_fileAt h b i k a d),
    (Less_fileAt h b k i d a) by done.
  split_and!.
  - by apply lessLoop_irrefl.
  - by apply lessLoop_asym.
  - by apply lessLoop_trans.
  - intros Hac Hca Hcd Hdc.
    apply lessLoop_incomparable; [done|].
    assert (Forall (tied a c) (Priority b)) as Htac
      by by apply lessLoop_incomparable.
    assert (Forall (tied c d) (Priority b)) as Htcd
      by by apply lessLoop_incomparable.
    rewrite Forall_forall in *. intros key Hkey. unfold tied in *.
    by rewrite (Htac key Hkey), (Htcd key Hkey).
Qed.

(** X6. For priority keys that are not empty, two files are tied under
    [ByPriority.Less] (neither sorts before the other) exactly when their
    scores are equal under every key; in particular two files that were
    never parsed are tied. *)
Theorem Less_tied_iff_equal_scores h b i j a c :
  fileAt h b i = Some a → fileAt h b j = Some c →
  Forall (fun key => key ≠ "") (Priority b) →
  (Less h b i j = Ok false ∧ Less h b j i = Ok false
     ↔ Forall (tied a c) (Priority b)) ∧
  (MatchParts a = None → MatchParts c = None →
   Less h b i j = Ok false ∧ Less h b j i = Ok false).
Proof.
  intros Ha Hc Hkeys.
  rewrite (Less_fileAt h b i j a c), (Less_fileAt h b j i c a) by done.
  split; [by apply lessLoop_incomparable|].
  intros Hna Hnc. apply lessLoop_incomparable; [done|].
  apply Forall_forall. intros key _. unfold tied, scorePart.
  by rewrite Hna, Hnc.
Qed.

Lemma lessLoop_descending first second priority :
  Forall (fun k => k ≠ "" ∧ descending k = false) priority →
  lessLoop first second (String "^" <$> priority)
    = lessLoop second first priority.
Proof.
  induction 1 as [|k rest [Hk Hasc] _ IH]; [done|].
  rewrite fmap_cons.
  destruct first as [a|], second as [c|];
    try (rewrite !lessLoop_nil by (done || auto); done).
  rewrite !lessLoop_key, IH, Hasc by done.
  assert (keyName (String "^" k) = k) as -> by done.
  assert (keyName k = k) as ->.
  { destruct k as [|ch k]; [done|]. simpl in *.
    by rewrite Hasc. }
  simpl.
  destruct (Z.ltb_spec (scorePart a k) (scorePart c k));
    destruct (Z.ltb_spec (scorePart c k) (scorePart a k));
    try done; lia.
Qed.

(** X7. Putting the marker [^] in front of every key reverses the order:
    for keys that are not empty and carry no marker of their own,
    [Less(i, j)] under the marked keys is [Less(j, i)] under the plain
    ones, panics included. *)
Theorem descending_reverses_order h b priority i j :
  Forall (fun k => k ≠ "" ∧ descending k = false) priority →
  Less h (withPriority b (String "^" <$> priority)) i j
    = Less h (withPriority b priority) j i.
Proof.
  intros Hkeys. unfold Less, withPriority. simpl.
  destruct (files b !! i) as [p|], (files b !! j) as [q|]; try done.
  by apply lessLoop_descending.
Qed.

(** X8. Where [ByPriority.Less] panics or not at the edges: an index
    outside the collection panics; with an empty priority list the result
    is false and no pointer is dereferenced; with a first key that is not
    empty a nil pointer on either side panics. *)
Theorem Less_edges h b i j :
  ((length (files b) ≤ i)%nat ∨ (length (files b) ≤ j)%nat →
   Less h b i j = Panicked) ∧
  ((i < length (files b))%nat → (j < length (files b))%nat →
   Priority b = [] → Less h b i j = Ok false) ∧
  (∀ key rest, Priority b = key :: rest → key ≠ "" →
     fileAt h b i = None ∨ fileAt h b j = None →
     Less h b i j = Panicked).
Proof.
  unfold Less, fileAt. split_and!.
  - intros [Hi|Hj].
    + by rewrite (proj2 (lookup_ge_None _ _) Hi).
    + rewrite (proj2 (lookup_ge_None (files b) j) Hj).
      by destruct (files b !! i).
  - intros [p ->]%lookup_lt_is_Some [q ->]%lookup_lt_is_Some ->. done.
  - intros key rest -> Hkey Hnil.
    destruct (files b !! i) as [p|]; [|done].
    destruct (files b !! j) as [q|]; [|done].
    simpl in Hnil. by apply lessLoop_nil.
Qed.

End Ordering.

(** X5, witness: the two files of the documentation and themselves. *)
Lemma Less_strict_weak_order_witness :
  Less docHeap docByPriority 0 0 = Ok false ∧
  (Less docHeap docByPriority 0 1 = Ok true →
   Less docHeap docByPriority 1 0 = Ok false).
Proof.
  destruct (Less_strict_weak_order docHeap docByPriority 0 1 0
              fileA fileB fileA eq_refl eq_refl eq_refl) as (H1 & H2 & _).
  - repeat constructor; done.
  - by split.
Defined.

(** X6, witness: a file of the documentation is tied with itself. *)
Lemma Less_tied_iff_equal_scores_witness :
  Less docHeap docByPriority 0 0 = Ok false ∧
  Less docHeap docByPriority 0 0 = Ok false
  ↔ Forall (tied fileA fileA) (Priority docByPriority).
Proof.
  refine (proj1 (Less_tied_iff_equal_scores docHeap docByPriority 0 0
                   fileA fileA eq_refl eq_refl _)).
  repeat constructor; done.
Defined.

(** X7, witness: the keys Year and Seq, marked and plain. *)
Lemma descending_reverses_order_witness :
  Less docHeap (withPriority docByPriority (String "^" <$> ["Year"; "Seq"]))
    0 1
  = Less docHeap (withPriority docByPriority ["Year"; "Seq"]) 1 0.
Proof.
  apply (descending_reverses_order docHeap docByPriority ["Year"; "Seq"] 0 1).
  repeat constructor; done.
Defined.

(** ** [Logfiles]: [IndexOf] and [Swap] *)

Section Collection.
Implicit Types (h : gmap nat Logfile) (l fs : list nat) (s : string).

Lemma indexOfFrom_find h s l k :
  (∀ p, p ∈ l → is_Some (h !! p)) →
  indexOfFrom h s k l
    = Ok (match list_find (namedAt h s) l with
          | Some (i, _) => Z.of_nat (k + i)
          | None => -1
          end).
Proof.
  revert k. induction l as [|p rest IH]; intros k Hvalid; [done|].
  destruct (Hvalid p) as [f Hf]; [by left|].
  assert (namedAt h s p ↔ FileName f = s) as Hnamed.
  { unfold namedAt. rewrite Hf. simpl. naive_solver. }
  simpl. rewrite Hf.
  destruct (decide (FileName f = s)) as [Hs|Hs].
  - rewrite decide_True by by apply Hnamed. simpl. by rewrite Nat.add_0_r.
  - rewrite decide_False by by rewrite Hnamed.
    rewrite IH by (intros q Hq; apply Hvalid; by right).
    destruct (list_find (namedAt h s) rest) as [[i q]|]; simpl; [|done].
    do 2 f_equal. lia.
Qed.

(** X9. On a collection without nil pointers [Logfiles.IndexOf] returns
    the index of the first file with the given name, and -1 exactly when
    no file of the collection has that name; the result is always between
    -1 and the last index. *)
Theorem IndexOf_first_match h l s :
  (∀ p, p ∈ l → is_Some (h !! p)) →
  (∀ i : nat,
     Logfiles_IndexOf h l s = Ok (Z.of_nat i) ↔
     ∃ p, l !! i = Some p ∧ namedAt h s p ∧
          ∀ j q, l !! j = Some q → (j < i)%nat → ¬ namedAt h s q) ∧
  (Logfiles_IndexOf h l s = Ok (-1) ↔ ∀ p, p ∈ l → ¬ namedAt h s p) ∧
  (∃ z, Logfiles_IndexOf h l s = Ok z ∧ -1 ≤ z < Z.of_nat (length l)).
Proof.
  intros Hvalid. unfold Logfiles_IndexOf.
  rewrite indexOfFrom_find by done.
  destruct (list_find (namedAt h s) l) as [[i0 p0]|] eqn:Hfind.
  - pose proof Hfind as (Hi0 & Hp0 & Hfirst)%list_find_Some.
    split_and!.
    + intros i. split.
      * intros [= Hi]. assert (i = i0) as -> by lia. eauto.
      * intros (p & Hp & Hnamed & Hbefore).
        assert (list_find (namedAt h s) l = Some (i, p)) as Hfind'
          by by apply list_find_Some.
        rewrite Hfind in Hfind'. by simplify_eq.
    + split; [intros [=]; lia|].
      intros Hnone. destruct (Hnone p0); [|done].
      by eapply list_elem_of_lookup_2.
    + eexists. split; [done|]. apply lookup_lt_Some in Hi0. simpl. lia.
  - pose proof Hfind as Hnone%list_find_None. rewrite Forall_forall in Hnone.
    split_and!.
    + intros i. split; [intros [=]; lia|].
      intros (p & Hp & Hnamed & _). destruct (Hnone p); [|done].
      by eapply list_elem_of_lookup_2.
    + done.
    + eexists. split; [done|]. lia.
Qed.

(** X10. [Logfiles.Swap] with both indices inside the collection
    exchanges the two entries and leaves every other entry, the length
    and the files themselves as they were: the result is a permutation of
    the collection, and swapping the same indices again restores it.
    With an index outside the collection it panics. *)
Theorem Swap_exchanges l i j :
  ((i < length l)%nat → (j < length l)%nat →
   ∃ l', Logfiles_Swap l i j = Ok l' ∧
     l' !! i = l !! j ∧ l' !! j = l !! i ∧
     (∀ k, k ≠ i → k ≠ j → l' !! k = l !! k) ∧
     Logfiles_Len l' = Logfiles_Len l ∧
     l' ≡ₚ l ∧
     Logfiles_Swap l' i j = Ok l) ∧
  ((length l ≤ i)%nat ∨ (length l ≤ j)%nat → Logfiles_Swap l i j = Panicked).
Proof.
  unfold Logfiles_Swap, Logfiles_Len. split.
  - intros Hi Hj.
    destruct (lookup_lt_is_Some_2 l i Hi) as [p Hp].
    destruct (lookup_lt_is_Some_2 l j Hj) as [q Hq].
    rewrite Hp, Hq. eexists. split; [done|].
    assert (<[j:=p]> (<[i:=q]> l) !! i = Some q) as Hi'.
    { destruct (decide (i = j)) as [->|Hne].
      - rewrite list_lookup_insert_eq by (by rewrite length_insert).
        congruence.
      - rewrite list_lookup_insert_ne by done.
        by rewrite list_lookup_insert_eq. }
    assert (<[j:=p]> (<[i:=q]> l) !! j = Some p) as Hj'.
    { by rewrite list_lookup_insert_eq by (by rewrite length_insert). }
    split_and!; try done.
    + intros k Hki Hkj. by rewrite !list_lookup_insert_ne.
    + by rewrite !length_insert.
    + by apply Permutation_insert_swap.
    + rewrite Hi', Hj'. f_equal.
      apply list_eq. intros k.
      destruct (decide (k = j)) as [->|Hkj].
      { rewrite list_lookup_insert_eq by (by rewrite !length_insert). done. }
      rewrite list_lookup_insert_ne by done.
      destruct (decide (k = i)) as [->|Hki].
      { rewrite list_lookup_insert_eq by (by rewrite !length_insert). done. }
      by rewrite !list_lookup_insert_ne.
  - intros [Hi|Hj].
    + by rewrite (proj2 (lookup_ge_None l i) Hi).
    + rewrite (proj2 (lookup_ge_None l j) Hj). by destruct (l !! i).
Qed.

End Collection.

(** X9, witness: the second file of the documentation is found at 1. *)
Lemma IndexOf_first_match_witness :
  ∃ z, Logfiles_IndexOf docHeap [0; 1]%nat "2013/August/08/xyz-2.log" = Ok z ∧
       -1 ≤ z < Z.of_nat (length [0; 1]%nat).
Proof.
  refine (proj2 (proj2 (IndexOf_first_match docHeap [0; 1]%nat
                          "2013/August/08/xyz-2.log" _))).
  intros p Hp.
  repeat (apply elem_of_cons in Hp as [->|Hp];
          [by apply (bool_decide_unpack _)|]).
  by apply elem_of_nil in Hp.
Defined.

(** ** [MultipleError] *)

Section Errors.
Implicit Types (m : list string) (s sep : string).

Lemma Join_snoc m s sep :
  GoStrings.Join (m ++ [s]) sep
    = match m with
      | [] => s
      | _ => GoStrings.Join m sep +:+ sep +:+ s
      end.
Proof.
  induction m as [|e [|e' rest] IH]; [done..|].
  change (e +:+ sep +:+ GoStrings.Join ((e' :: rest) ++ [s]) sep
          = (e +:+ sep +:+ GoStrings.Join (e' :: rest) sep) +:+ sep +:+ s).
  by rewrite IH, !append_assoc.
Qed.

(** X11. A new [MultipleError] is no error and its text is empty. Adding
    a message makes it an error, with one more message, and appends the
    message to the text: after the separator [" :: "] when there were
    messages before, and alone when there were none. *)
Theorem MultipleError_accumulates m s :
  IsError NewMultipleError = false ∧
  MultipleError_Error NewMultipleError = "" ∧
  IsError (AddMessage m s) = true ∧
  length (AddMessage m s) = S (length m) ∧
  MultipleError_Error (AddMessage m s)
    = (if IsError m then MultipleError_Error m +:+ " :: " +:+ s else s).
Proof.
  unfold IsError, MultipleError_Error, AddMessage, NewMultipleError.
  split_and!; try done.
  - apply bool_decide_eq_true. rewrite length_app. simpl. lia.
  - rewrite length_app. simpl. lia.
  - rewrite Join_snoc. destruct m as [|e rest]; [done|].
    by rewrite bool_decide_true by (simpl; lia).
Qed.

End Errors.

(** ** [ScanDirectoryForLogfiles] *)

Section Scan.
Implicit Types (h : gmap nat Logfile) (re : Regexp) (walk : list WalkEntry).

Lemma scanWalk_spec re walk :
  ∀ h found h' found',
  scanWalk re walk h found = (h', found') →
  ∃ new,
    found' = found ++ new ∧
    (fun p => h' !! p) <$> new
      = (fun s => Some (newLogfile s)) <$> scannedPaths re walk ∧
    (∀ p, p ∈ new → h !! p = None) ∧
    NoDup new ∧
    (∀ p, is_Some (h !! p) → h' !! p = h !! p).
Proof.
  induction walk as [|e rest IH]; intros h found h' found' Hscan.
  { simpl in Hscan. simplify_eq. exists []. rewrite app_nil_r.
    split_and!; try done; [set_solver|constructor]. }
  simpl in Hscan. unfold scannedPaths.
  destruct (walkErr e || isDir e) eqn:Hskip.
  { rewrite filter_cons_False by (unfold kept; by rewrite Hskip).
    by apply IH. }
  destruct (MatchString re (path e)) eqn:Hmatch.
  2: { rewrite filter_cons_False
         by (unfold kept; by rewrite Hskip, Hmatch).
       by apply IH. }
  rewrite filter_cons_True by (unfold kept; by rewrite Hskip, Hmatch).
  assert (h !! fresh (dom h) = None) as Hfresh
    by apply not_elem_of_dom, is_fresh.
  apply IH in Hscan as (new & -> & Hfiles & Hnew & Hdup & Hkeep).
  exists (fresh (dom h) :: new).
  assert (∀ p, p ∈ new → p ≠ fresh (dom h)) as Hne.
  { intros p Hp ->. specialize (Hnew _ Hp).
    by rewrite lookup_insert_eq in Hnew. }
  split_and!.
  - by rewrite <- app_assoc.
  - rewrite !fmap_cons. f_equal; [|exact Hfiles].
    rewrite Hkeep by (rewrite lookup_insert_eq; by eexists).
    by rewrite lookup_insert_eq.
  - intros p [->|Hp]%elem_of_cons; [done|].
    pose proof (Hnew _ Hp) as Hp'.
    rewrite lookup_insert_ne in Hp'; [done|].
    intros Heq. by apply (Hne p Hp).
  - constructor; [|done]. intros Hin. by apply (Hne _ Hin).
  - intros p Hp. rewrite Hkeep.
    + apply lookup_insert_ne. intros <-. rewrite Hfresh in Hp.
      by destruct Hp.
    + rewrite lookup_insert_ne; [done|]. intros <-. rewrite Hfresh in Hp.
      by destruct Hp.
Qed.

(** X12. [ScanDirectoryForLogfiles] returns one new file for every entry
    of the walk that is no traversal error, no directory and has a path
    the pattern matches, in the order of the walk; each holds that path
    as its name and has both maps nil. The pointers it returns are
    distinct from one another and from every file that existed before,
    and the files that existed before are unchanged. *)
Theorem ScanDirectoryForLogfiles_spec walk re h :
  (fun p => (ScanDirectoryForLogfiles walk re h).1 !! p)
     <$> (ScanDirectoryForLogfiles walk re h).2
    = (fun s => Some (newLogfile s)) <$> scannedPaths re walk ∧
  length (ScanDirectoryForLogfiles walk re h).2
    = length (scannedPaths re walk) ∧
  NoDup (ScanDirectoryForLogfiles walk re h).2 ∧
  (∀ p, p ∈ (ScanDirectoryForLogfiles walk re h).2 → h !! p = None) ∧
  (∀ p, is_Some (h !! p) →
     (ScanDirectoryForLogfiles walk re h).1 !! p = h !! p).
Proof.
  unfold ScanDirectoryForLogfiles.
  destruct (scanWalk re walk h []) as [h' found] eqn:Hscan.
  apply scanWalk_spec in Hscan as (new & -> & Hfiles & Hnew & Hdup & Hkeep).
  simpl. split_and!; try done.
  apply (f_equal length) in Hfiles. by rewrite !length_fmap in Hfiles.
Qed.

End Scan.

(** ** Parsing a collection twice *)

Section ParseTwice.
Context `{GoPlatform}.

(** X13. Parsing a collection a second time, with the same pattern and
    translation map, changes no file and returns what the first call
    returned. The pattern behaves as documented, every pointer of the
    collection is non-nil and every file name matches the pattern. *)
Theorem parsing_twice_changes_nothing re tr (h : gmap nat Logfile)
    (fs : list nat) h1 out :
  RegexpLaws re →
  (∀ p, p ∈ fs →
     ∃ l, h !! p = Some l ∧ MatchString re (FileName l) = true) →
  Logfiles_PopulateMatchParts re tr fs h = (h1, out) →
  Logfiles_PopulateMatchParts re tr fs h1 = (h1, out).
Proof.
  intros Hre Hvalid Hrun. unfold Logfiles_PopulateMatchParts in *.
  destruct (populateAll_spec re tr h fs Hre h NewMultipleError Hvalid)
    as (h1' & Hrun1 & Hin1 & Hout1); [by left|].
  rewrite Hrun1 in Hrun. injection Hrun as <- <-.
  assert (parsedOrNot re tr h h1') as Hinv.
  { intros p. destruct (decide (p ∈ fs)) as [Hp|Hp].
    - destruct (Hvalid p Hp) as (l & Hl & _). right. exists l.
      split; [done|]. by apply Hin1.
    - left. by apply Hout1. }
  destruct (populateAll_spec re tr h fs Hre h1' NewMultipleError Hvalid Hinv)
    as (h2 & Hrun2 & Hin2 & Hout2).
  rewrite Hrun2. f_equal. apply map_eq. intros p.
  destruct (decide (p ∈ fs)) as [Hp|Hp].
  - destruct (Hvalid p Hp) as (l & Hl & _).
    by rewrite (Hin1 p l), (Hin2 p l).
  - by apply Hout2.
Qed.

End ParseTwice.

(** X13, witness: the four files of the scanned directory. *)
Lemma parsing_twice_changes_nothing_witness :
  Logfiles_PopulateMatchParts (H := amd64) monthSeq ∅ monthSeqScan.2
    (Logfiles_PopulateMatchParts (H := amd64) monthSeq ∅ monthSeqScan.2
       monthSeqScan.1).1
  = Logfiles_PopulateMatchParts (H := amd64) monthSeq ∅ monthSeqScan.2
      monthSeqScan.1.
Proof.
  destruct (Logfiles_PopulateMatchParts (H := amd64) monthSeq ∅
              monthSeqScan.2 monthSeqScan.1) as [h1 out] eqn:Hrun.
  exact (parsing_twice_changes_nothing (H := amd64) monthSeq ∅
           monthSeqScan.1 monthSeqScan.2 h1 out monthSeq_laws
           monthSeqScan_matches Hrun).
Defined.

(** ** Grouping: edges and composition *)

Section Grouping.
Implicit Types (h : gmap nat Logfile) (fs : list nat) (diff : list string).
Implicit Types (mfs : gmap string (list nat)).

(** Creating the group when it is missing and appending to it amount to
    one update of the map. *)
Lemma filterLoop_cons h diff p rest mfs name :
  ResolveDifferentiatedName (h !! p) diff = Ok name →
  filterLoop h diff (p :: rest) mfs
    = filterLoop h diff rest
        (<[name := default [] (mfs !! name) ++ [p]]> mfs).
Proof.
  intros Hname. simpl. rewrite Hname.
  destruct (mfs !! name) as [g|] eqn:Hg; [by rewrite Hg|].
  by rewrite lookup_insert_eq, insert_insert_eq.
Qed.

(** Files that all resolve to one name end up in one group. *)
Lemma filterLoop_one_name h diff n fs mfs :
  (∀ p, p ∈ fs → ResolveDifferentiatedName (h !! p) diff = Ok n) →
  filterLoop h diff fs mfs
    = Ok (match fs with
          | [] => mfs
          | _ => <[n := default [] (mfs !! n) ++ fs]> mfs
          end).
Proof.
  revert mfs. induction fs as [|p rest IH]; intros mfs Hname; [done|].
  rewrite (filterLoop_cons h diff p rest mfs n) by (apply Hname; by left).
  rewrite IH by (intros q Hq; apply Hname; by right).
  destruct rest as [|q rest]; [done|].
  rewrite lookup_insert_eq, insert_insert_eq. simpl.
  by rewrite <- app_assoc.
Qed.

Lemma filterLoop_nil_pointer h diff d fs mfs p :
  p ∈ fs → h !! p = None →
  filterLoop h (d :: diff) fs mfs = Panicked.
Proof.
  revert mfs. induction fs as [|q rest IH]; intros mfs Hp Hnil.
  { by apply elem_of_nil in Hp. }
  destruct (h !! q) as [l|] eqn:Hq.
  - apply elem_of_cons in Hp as [->|Hp]; [congruence|].
    rewrite (filterLoop_cons h (d :: diff) q rest mfs
               (identifier l (d :: diff)))
      by (rewrite Hq; apply ResolveDifferentiatedName_identifier).
    by apply IH.
  - simpl. by rewrite Hq.
Qed.

(** X14. [FilterMultipleStreamFiles] at its edges. An empty collection
    gives the empty map. With an empty differentiator no pointer is
    dereferenced and every file, nil pointers included, goes to the one
    group named by the empty string. Files that were never parsed have
    no raw captures, so every token stands for itself and they all go to
    the one group named by the concatenated tokens. With a differentiator
    that is not empty, a nil pointer in the collection makes the call
    panic. *)
Theorem FilterMultipleStreamFiles_edges h fs diff :
  FilterMultipleStreamFiles h [] diff = Ok ∅ ∧
  (fs ≠ [] → FilterMultipleStreamFiles h fs [] = Ok {[ "" := fs ]}) ∧
  (fs ≠ [] →
   (∀ p, p ∈ fs → ∃ l, h !! p = Some l ∧ StringMatchParts l = None) →
   FilterMultipleStreamFiles h fs diff = Ok {[ concatAll diff := fs ]}) ∧
  (∀ p, diff ≠ [] → p ∈ fs → h !! p = None →
     FilterMultipleStreamFiles h fs diff = Panicked).
Proof.
  unfold FilterMultipleStreamFiles. split_and!.
  - done.
  - intros Hne. rewrite (filterLoop_one_name h [] "") by done.
    destruct fs; [done|]. by rewrite lookup_empty, insert_empty.
  - intros Hne Hunparsed.
    rewrite (filterLoop_one_name h diff (concatAll diff)).
    + destruct fs; [done|]. by rewrite lookup_empty, insert_empty.
    + intros p Hp. destruct (Hunparsed p Hp) as (l & -> & Hraw).
      rewrite ResolveDifferentiatedName_identifier, identifier_literal;
        [done|].
      intros d _. by rewrite Hraw.
  - intros p Hdiff Hp Hnil. destruct diff as [|d diff]; [done|].
    by eapply filterLoop_nil_pointer.
Qed.

Lemma groupedFiles_insert_fresh mfs n g :
  mfs !! n = None →
  groupedFiles (<[n := g]> mfs) = (length g + groupedFiles mfs)%nat.
Proof.
  intros Hn. unfold groupedFiles.
  apply (map_fold_insert_L
           (fun (_ : string) (g : list nat) acc => (length g + acc)%nat));
    [|done].
  intros. lia.
Qed.

Lemma groupedFiles_insert mfs n g :
  groupedFiles (<[n := g]> mfs)
    = (length g + groupedFiles (delete n mfs))%nat.
Proof.
  rewrite <- (insert_delete_eq mfs n g).
  apply groupedFiles_insert_fresh, lookup_delete_eq.
Qed.

Lemma groupedFiles_delete mfs n :
  groupedFiles mfs
    = (length (default [] (mfs !! n)) + groupedFiles (delete n mfs))%nat.
Proof.
  destruct (mfs !! n) as [g|] eqn:Hg; simpl.
  - rewrite <- (insert_delete_id mfs n g) at 1 by done.
    apply groupedFiles_insert_fresh, lookup_delete_eq.
  - by rewrite delete_id.
Qed.

Lemma filterLoop_count h diff fs mfs m :
  filterLoop h diff fs mfs = Ok m →
  groupedFiles m = (groupedFiles mfs + length fs)%nat.
Proof.
  revert mfs. induction fs as [|p rest IH]; intros mfs Hrun.
  { simpl in *. simplify_eq. lia. }
  destruct (ResolveDifferentiatedName (h !! p) diff) as [name|] eqn:Hname.
  2: { simpl in Hrun. by rewrite Hname in Hrun. }
  rewrite (filterLoop_cons _ _ _ _ _ name Hname) in Hrun.
  apply IH in Hrun.
  rewrite Hrun, groupedFiles_insert, (groupedFiles_delete mfs name),
    length_app.
  simpl. lia.
Qed.

(** X15. [FilterMultipleStreamFiles] loses and duplicates nothing: when
    it returns, the groups together hold as many files as the collection,
    no group is empty, and the groups of a collection [fs1 ++ fs2] are
    those of [fs1] followed, name by name, by those of [fs2]. The
    pointers of the collection are not nil. *)
Theorem FilterMultipleStreamFiles_partitions h fs1 fs2 diff :
  (∀ p, p ∈ fs1 ++ fs2 → is_Some (h !! p)) →
  ∃ m m1 m2,
    FilterMultipleStreamFiles h (fs1 ++ fs2) diff = Ok m ∧
    FilterMultipleStreamFiles h fs1 diff = Ok m1 ∧
    FilterMultipleStreamFiles h fs2 diff = Ok m2 ∧
    groupedFiles m = length (fs1 ++ fs2) ∧
    (∀ k, m !! k ≠ Some []) ∧
    (∀ k, default [] (m !! k)
            = default [] (m1 !! k) ++ default [] (m2 !! k)).
Proof.
  intros Hvalid. unfold FilterMultipleStreamFiles.
  destruct (filterLoop_groups h diff (fs1 ++ fs2) ∅ Hvalid)
    as (m & Hrun & Hm).
  destruct (filterLoop_groups h diff fs1 ∅) as (m1 & Hrun1 & Hm1).
  { intros p Hp. apply Hvalid, elem_of_app. by left. }
  destruct (filterLoop_groups h diff fs2 ∅) as (m2 & Hrun2 & Hm2).
  { intros p Hp. apply Hvalid, elem_of_app. by right. }
  exists m, m1, m2. split_and!; try done.
  - by rewrite (filterLoop_count _ _ _ _ _ Hrun).
  - intros k. rewrite Hm, lookup_empty. by destruct (filter _ _).
  - intros k. rewrite Hm, Hm1, Hm2, !lookup_empty, filter_app.
    destruct (filter _ fs1), (filter _ fs2); simpl;
      by rewrite ?app_nil_r.
Qed.

End Grouping.

(** X15, witness: the three host files, split after the first. *)
Lemma FilterMultipleStreamFiles_partitions_witness :
  ∃ m m1 m2,
    FilterMultipleStreamFiles hostHeap ([0%nat] ++ [1; 2]%nat) ["Host"]
      = Ok m ∧
    FilterMultipleStreamFiles hostHeap [0%nat] ["Host"] = Ok m1 ∧
    FilterMultipleStreamFiles hostHeap [1; 2]%nat ["Host"] = Ok m2 ∧
    groupedFiles m = length ([0%nat] ++ [1; 2]%nat) ∧
    (∀ k, m !! k ≠ Some []) ∧
    (∀ k, default [] (m !! k)
            = default [] (m1 !! k) ++ default [] (m2 !! k)).
Proof.
  apply (FilterMultipleStreamFiles_partitions hostHeap [0%nat] [1; 2]%nat
           ["Host"]).
  intros p Hp.
  repeat (apply elem_of_cons in Hp as [->|Hp];
          [by apply (bool_decide_unpack _)|]).
  by apply elem_of_nil in Hp.
Defined.

(** ** Parsing and then resolving; parsing up to a panic *)

Section ParseThen.
Context `{GoPlatform}.
Implicit Types (ms names : list string) (tr : gmap string (gmap string Z)).
Implicit Types (h : gmap nat Logfile) (fs : list nat).

(** A run that returns nil had a submatch for every slot. *)
Lemma populateLoop_success_length ms tr names i raw sc raw' sc' :
  populateLoop ms tr i names raw sc = (raw', sc', Return None) →
  (length names ≤ length ms - i)%nat.
Proof.
  revert i raw sc.
  induction names as [|m ns IH]; intros i raw sc Hrun; simpl in *; [lia|].
  destruct (ms !! i) as [v|] eqn:Hv; [|done].
  apply lookup_lt_Some in Hv.
  case_decide.
  - apply IH in Hrun. lia.
  - destruct (slotScore tr m v); [done|]. apply IH in Hrun. lia.
Qed.

(** Every name of a list has a last position. *)
Lemma last_occurrence (names : list string) d :
  d ∈ names → ∃ k, names !! k = Some d ∧ d ∉ drop (S k) names.
Proof.
  induction names as [|m ns IH]; intros Hd; [by apply elem_of_nil in Hd|].
  destruct (decide (d ∈ ns)) as [Hin|Hnotin].
  - destruct (IH Hin) as (k & Hk & Hlast). by exists (S k).
  - apply elem_of_cons in Hd as [->|Hd]; [|done].
    by exists 0%nat.
Qed.

(** X16. After [Logfile.PopulateMatchParts] has returned nil, a
    differentiator token that is one of the capture names resolves to the
    value captured by the last slot of that name: for a differentiator
    made of capture names, [ResolveDifferentiatedName] returns the
    concatenation of those captured values, in the order of the
    tokens. *)
Theorem parsed_captures_resolve names ms tr (l l' : Logfile) diff :
  Logfile_PopulateMatchParts names ms tr l = (l', Return None) →
  (∀ d, d ∈ diff → d ∈ names) →
  ∃ values,
    Forall2 (fun d v => ∃ k, names !! k = Some d ∧ ms !! k = Some v ∧
                             d ∉ drop (S k) names) diff values ∧
    ResolveDifferentiatedName (Some l') diff = Ok (concatAll values).
Proof.
  intros Hrun Hcaptures.
  apply Logfile_PopulateMatchParts_inv in Hrun as (raw & sc & Hloop & ->).
  rewrite ResolveDifferentiatedName_identifier.
  induction diff as [|d rest IH].
  { exists []. by split; [constructor|]. }
  destruct IH as (values & Hvalues & Hident).
  { intros d' Hd'. apply Hcaptures. by right. }
  destruct (last_occurrence names d) as (k & Hk & Hlast).
  { apply Hcaptures. by left. }
  pose proof (populateLoop_success_length _ _ _ _ _ _ _ _ Hloop) as Hlen.
  destruct (lookup_lt_is_Some_2 ms k) as [v Hv].
  { apply lookup_lt_Some in Hk. lia. }
  destruct (populateLoop_success _ _ _ _ _ _ _ _ k d v Hloop Hk Hv Hlast)
    as [Hraw _].
  exists (v :: values). split.
  - constructor; [|done]. eauto.
  - rewrite identifier_cons. injection Hident as ->.
    unfold tokenText. simpl. by rewrite Hraw.
Qed.

(** The loop over [fs1 ++ fs2], when every file of [fs1] is non-nil and
    matches the pattern, goes on over [fs2] with the files of [fs1]
    parsed and their messages collected. *)
Lemma populateAll_app re tr h0 fs1 fs2 :
  RegexpLaws re →
  ∀ h errs0,
  (∀ p, p ∈ fs1 →
     ∃ l, h0 !! p = Some l ∧ MatchString re (FileName l) = true) →
  parsedOrNot re tr h0 h →
  ∃ h1,
    populateAll re tr (SubexpNames re) (fs1 ++ fs2) h errs0
      = populateAll re tr (SubexpNames re) fs2 h1
          (errs0 ++ parseErrors re tr h0 fs1) ∧
    (∀ p l, p ∈ fs1 → h0 !! p = Some l →
       h1 !! p = Some (parseOf re tr l).1) ∧
    (∀ p, p ∉ fs1 → h1 !! p = h !! p).
Proof.
  intros Hre. induction fs1 as [|p rest IH]; intros h errs0 Hvalid Hinv.
  { exists h. simpl. rewrite app_nil_r. split_and!; [done| |done].
    intros p l Hp. by apply elem_of_nil in Hp. }
  destruct (Hvalid p) as (l0 & Hl0 & Hmatch); [by left|].
  assert (∃ lcur, h !! p = Some lcur ∧
                  parseOf re tr lcur = parseOf re tr l0)
    as (lcur & Hcur & Hparse).
  { destruct (Hinv p) as [Heq|(l & Hl & Hh)].
    - exists l0. by rewrite Heq.
    - simplify_eq. eexists. split; [done|]. apply parseOf_idemp. }
  pose proof (parseOf_no_panic re tr l0 Hre Hmatch) as Hnopanic.
  pose proof (parseErrors_cons re tr h0 p rest l0 Hl0) as Herrs.
  simpl. rewrite Hcur.
  change (Logfile_PopulateMatchParts (SubexpNames re)
            (FindStringSubmatch re (FileName lcur)) tr lcur)
    with (parseOf re tr lcur).
  rewrite Hparse.
  assert (parsedOrNot re tr h0 (<[p := (parseOf re tr l0).1]> h)) as Hinv'.
  { intros q. destruct (decide (q = p)) as [->|Hq].
    - right. exists l0. by rewrite lookup_insert_eq.
    - rewrite lookup_insert_ne by done. apply Hinv. }
  destruct (parseOf re tr l0) as [l' out] eqn:Hparse0. simpl in *.
  assert (∀ errs1, ∃ h1,
    populateAll re tr (SubexpNames re) (rest ++ fs2) (<[p := l']> h) errs1
      = populateAll re tr (SubexpNames re) fs2 h1
          (errs1 ++ parseErrors re tr h0 rest) ∧
    (∀ q l, q ∈ p :: rest → h0 !! q = Some l →
       h1 !! q = Some (parseOf re tr l).1) ∧
    (∀ q, q ∉ p :: rest → h1 !! q = h !! q)) as Hrest.
  { intros errs1.
    destruct (IH (<[p := l']> h) errs1) as (h1 & Hrun & Hin & Hout);
      [intros q Hq; apply Hvalid; by right|done|].
    exists h1. split_and!; [done| |].
    - intros q l Hq Hl. destruct (decide (q ∈ rest)) as [Hqr|Hqr].
      + by apply Hin.
      + apply elem_of_cons in Hq as [->|Hq]; [|done]. simplify_eq.
        by rewrite Hparse0, Hout, lookup_insert_eq.
    - intros q Hq. apply not_elem_of_cons in Hq as [Hqp Hqr].
      by rewrite Hout, lookup_insert_ne. }
  destruct out as [[e|]|]; [| |done].
  - destruct (Hrest (AddMessage errs0 e)) as (h1 & Hrun & Hin & Hout).
    exists h1. split_and!; [|done|done].
    rewrite Hrun, Herrs. unfold AddMessage. by rewrite <- !app_assoc.
  - destruct (Hrest errs0) as (h1 & Hrun & Hin & Hout).
    exists h1. split_and!; [|done|done].
    by rewrite Hrun, Herrs.
Qed.

(** X17. A panic of [Logfiles.PopulateMatchParts] does not undo what was
    done before it. When the files [fs1] are non-nil and match the
    pattern and the pointer after them is nil or leads to a file whose
    name does not match, the call panics, every file of [fs1] is left as
    its parse leaves it, and the files after the panicking one are not
    touched. An empty collection returns nil and changes nothing. *)
Theorem panic_keeps_parsed_prefix re tr h fs1 p fs2 :
  RegexpLaws re →
  (∀ q, q ∈ fs1 →
     ∃ l, h !! q = Some l ∧ MatchString re (FileName l) = true) →
  (h !! p = None ∨
   ∃ l, h !! p = Some l ∧ MatchString re (FileName l) = false) →
  p ∉ fs1 →
  ∃ h1,
    (Logfiles_PopulateMatchParts re tr (fs1 ++ p :: fs2) h).2 = Panic ∧
    (Logfiles_PopulateMatchParts re tr (fs1 ++ p :: fs2) h).1 = h1 ∧
    (∀ q l, q ∈ fs1 → h !! q = Some l →
       h1 !! q = Some (parseOf re tr l).1) ∧
    (∀ q, q ∉ fs1 → q ≠ p → h1 !! q = h !! q) ∧
    (FileName <$> h1 !! p = FileName <$> h !! p) ∧
    Logfiles_PopulateMatchParts re tr [] h = (h, Return None).
Proof.
  intros Hre Hvalid Hbad Hp. unfold Logfiles_PopulateMatchParts.
  destruct (populateAll_app re tr h fs1 (p :: fs2) Hre h NewMultipleError
              Hvalid) as (h1 & Hrun & Hin & Hout); [by left|].
  rewrite Hrun. simpl. rewrite (Hout p Hp).
  destruct Hbad as [Hnil|(l & Hl & Hno)].
  - rewrite Hnil. exists h1. split_and!; try done.
    + intros q Hq _. by apply Hout.
    + by rewrite (Hout p Hp), Hnil.
  - rewrite Hl.
    change (Logfile_PopulateMatchParts (SubexpNames re)
              (FindStringSubmatch re (FileName l)) tr l)
      with (parseOf re tr l).
    pose proof (parseOf_panic re tr l Hre Hno) as Hpanic.
    pose proof (parseOf_FileName re tr l) as Hname.
    destruct (parseOf re tr l) as [l' out]. simpl in *. subst out.
    exists (<[p := l']> h1). split_and!; try done.
    + intros q l0 Hq Hl0. rewrite lookup_insert_ne by congruence.
      by apply Hin.
    + intros q Hq Hqp. rewrite lookup_insert_ne by done. by apply Hout.
    + rewrite lookup_insert_eq. simpl. by f_equal.
Qed.

End ParseThen.

(** X16, witness: the parsed file [a-1.log] and the differentiator Host. *)
Lemma parsed_captures_resolve_witness :
  ∃ values,
    Forall2 (fun d v => ∃ k, [""; "Host"; "Seq"] !! k = Some d ∧
                             ["a-1.log"; "a"; "1"] !! k = Some v ∧
                             d ∉ drop (S k) [""; "Host"; "Seq"])
      ["Host"] values ∧
    ResolveDifferentiatedName (Some (hostFile "a-1.log" "a")) ["Host"]
      = Ok (concatAll values).
Proof.
  apply (parsed_captures_resolve (H := amd64) [""; "Host"; "Seq"]
           ["a-1.log"; "a"; "1"] ∅ (newLogfile "a-1.log")).
  - by vm_compute.
  - intros d Hd. apply list_elem_of_singleton in Hd as ->.
    apply (bool_decide_unpack _). by vm_compute.
Defined.

(** X17, witness: [README] after [Aug-1] makes the call panic, with
    [Aug-1] parsed. *)
Lemma panic_keeps_parsed_prefix_witness :
  ∃ h1,
    (Logfiles_PopulateMatchParts (H := amd64) monthSeq ∅
       ([0%nat] ++ 1%nat :: []) readmeHeap).2 = Panic ∧
    (Logfiles_PopulateMatchParts (H := amd64) monthSeq ∅
       ([0%nat] ++ 1%nat :: []) readmeHeap).1 = h1 ∧
    (∀ q l, q ∈ [0%nat] → readmeHeap !! q = Some l →
       h1 !! q = Some (parseOf (H := amd64) monthSeq ∅ l).1) ∧
    (∀ q, q ∉ [0%nat] → q ≠ 1%nat → h1 !! q = readmeHeap !! q) ∧
    (FileName <$> h1 !! 1%nat = FileName <$> readmeHeap !! 1%nat) ∧
    Logfiles_PopulateMatchParts (H := amd64) monthSeq ∅ [] readmeHeap
      = (readmeHeap, Return None).
Proof.
  apply (panic_keeps_parsed_prefix (H := amd64) monthSeq ∅ readmeHeap
           [0%nat] 1%nat [] monthSeq_laws).
  - intros q Hq. apply list_elem_of_singleton in Hq as ->.
    exists (newLogfile "Aug-1"). by vm_compute.
  - right. exists (newLogfile "README"). by vm_compute.
  - by intros Hin%list_elem_of_singleton.
Defined.
